(** * Portfolio site front end: theme controller, card renderer, particle
      canvas and text scramble.

    Shallow embedding of the main script of the site (theme toggle, project
    and organization rendering, [Particle], [animateNetwork], [TextScramble])
    together with the properties of its natural-language specification.

    Conventions.
    - DOM attributes and [localStorage] are finite maps from strings to
      strings ([gmap string string]); a missing key is JavaScript's [null].
    - Markup strings ([innerHTML]) are byte strings; text that the scramble
      effect indexes character by character is a list of UTF-16 code units.
    - JavaScript numbers of the particle canvas are the real numbers that
      doubles denote; the arithmetic on them is a parameter ([Particle.arith]),
      so that a property says what it needs of the rounding. Exact
      arithmetic is one instance.
    - [Math.random()] yields rationals; the only uses are the floor of a
      product with an integer and one comparison, taken exactly. *)

From Stdlib Require Import ZArith QArith Qround Reals Lra Lia.
From stdpp Require Import gmap strings list fin_maps.

(** ** Strings of the markup templates *)

(** The double quote character, and a double-quoted attribute value. *)
Definition dq : string := String (Ascii.ascii_of_nat 34) EmptyString.
Definition nl : string := String (Ascii.ascii_of_nat 10) EmptyString.
Definition q (s : string) : string := (dq ++ s ++ dq)%string.

(** [a.join('')] on an array of strings. *)
Fixpoint join_empty (l : list string) : string :=
  match l with
  | [] => EmptyString
  | s :: r => (s ++ join_empty r)%string
  end.

(** ** Content tables (data.js) *)

Module Project.
Record t := mk {
  title : string;
  description : string;
  tags : list string;
  link : string
}.
End Project.

Module Org.
Record t := mk {
  name : string;
  description : string;
  icon : string;
  link : string
}.
End Org.

(** The tables exported by data.js. *)
Definition projects : list Project.t := [
  Project.mk "go-utcp"
    "The official Go implementation of the Universal Tool Calling Protocol, enabling standardized tool usage across AI agents."
    ["Go"; "AI"; "Protocol"; "Standard"]
    "https://github.com/universal-tool-calling-protocol/go-utcp";
  Project.mk "Thunder"
    "A minimalist Go backend framework designed to convert gRPC services into REST and GraphQL APIs effortlessly."
    ["Go"; "gRPC"; "GraphQL"; "Framework"]
    "https://github.com/Protocol-Lattice/thunder";
  Project.mk "GoEventBus"
    "A high-performance, lock-free event bus for Go, optimized for real-time pipelines and microservices architectures."
    ["Go"; "Concurrency"; "Event Bus"; "Performance"]
    "https://github.com/Protocol-Lattice/GoEventBus";
  Project.mk "go-agent"
    "A flexible and powerful AI agent framework for Go, built to leverage the Protocol Lattice ecosystem."
    ["Go"; "AI"; "Agents"; "Lattice"]
    "https://github.com/Protocol-Lattice/go-agent";
  Project.mk "lattice-code"
    "AI agents for software creation, offering tools for high-level design, feature implementation, and code analysis."
    ["AI"; "Agents"; "Software Engineering"; "Lattice"]
    "https://github.com/Protocol-Lattice/lattice-code";
  Project.mk "memory-bank-mcp"
    "A robust memory bank implementation for the Model Context Protocol (MCP), built in Go."
    ["Go"; "MCP"; "Memory"; "AI"]
    "https://github.com/Protocol-Lattice/memory-bank-mcp";
  Project.mk "grpc-graphql-gateway"
    "A protoc plugin that automatically generates GraphQL execution code from Protocol Buffers definitions."
    ["Go"; "Protobuf"; "GraphQL"; "Code Gen"]
    "https://github.com/Raezil/grpc-graphql-gateway";
  Project.mk "vibe"
    "An advanced coding tool leveraging Google Gemini to support protobuf gRPC gateway files and Prisma schemas."
    ["AI"; "Gemini"; "Go"; "Prisma"]
    "https://github.com/Raezil/vibe"
].

Definition organizations : list Org.t := [
  Org.mk "Universal Tool Calling Protocol"
    "Member of the organization defining the open standard for AI tool interactions and discovery."
    "https://github.com/universal-tool-calling-protocol.png"
    "https://github.com/universal-tool-calling-protocol";
  Org.mk "Protocol Lattice"
    "Developing open standards and tools for AI interaction, memory, and tooling."
    "https://github.com/Protocol-Lattice.png"
    "https://github.com/Protocol-Lattice"
].

(** ** The page: DOM state the script reads and writes *)

Module Page.

(** Event handlers the renderer attaches to a card. *)
Inductive handler :=
| Spotlight                 (* sets --mouse-x / --mouse-y from the event *)
| OpenLink (url : string).  (* window.open(url, '_blank') unless on an <a> *)

(** An element made by [document.createElement('div')]. *)
Record element := mkElement {
  className : string;
  innerHTML : string;
  listeners : list (string * handler);
  style_cursor : option string
}.

Record page := mkPage {
  (* attributes of document.documentElement *)
  html_attrs : gmap string string;
  localStorage : gmap string string;
  sunIcon_display : string;
  moonIcon_display : string;
  (* window.updateCanvasTheme is a function; the variable it assigns *)
  updateCanvasTheme_set : bool;
  canvasTheme : string;
  (* children of #projects-container and of .org-container,
     [None] when the element is not in the document *)
  projectsContainer : option (list element);
  orgContainer : option (list element)
}.

(** *** Theme toggle *)

(** [v || d] on a value that is a string or null. *)
Definition or_default (v : option string) (d : string) : string :=
  match v with
  | Some (String c r) => String c r
  | _ => d
  end.

Definition updateThemeIcon (theme : string) (s : page) : page :=
  if decide (theme = "light") then
    mkPage (html_attrs s) (localStorage s) "none" "block"
           (updateCanvasTheme_set s) (canvasTheme s)
           (projectsContainer s) (orgContainer s)
  else
    mkPage (html_attrs s) (localStorage s) "block" "none"
           (updateCanvasTheme_set s) (canvasTheme s)
           (projectsContainer s) (orgContainer s).

Definition setAttribute (k v : string) (s : page) : page :=
  mkPage (<[k := v]> (html_attrs s)) (localStorage s)
         (sunIcon_display s) (moonIcon_display s)
         (updateCanvasTheme_set s) (canvasTheme s)
         (projectsContainer s) (orgContainer s).

Definition setItem (k v : string) (s : page) : page :=
  mkPage (html_attrs s) (<[k := v]> (localStorage s))
         (sunIcon_display s) (moonIcon_display s)
         (updateCanvasTheme_set s) (canvasTheme s)
         (projectsContainer s) (orgContainer s).

Definition updateCanvasTheme (theme : string) (s : page) : page :=
  mkPage (html_attrs s) (localStorage s)
         (sunIcon_display s) (moonIcon_display s)
         (updateCanvasTheme_set s) theme
         (projectsContainer s) (orgContainer s).

(** Lines 15-16 and 30: read the saved preference, default to dark. *)
Definition load_theme (s : page) : page :=
  let currentTheme := or_default (localStorage s !! "theme") "dark" in
  updateThemeIcon currentTheme (setAttribute "data-theme" currentTheme s).

(** Lines 35-36: the theme the click handler switches to. *)
Definition newTheme_of (currentTheme : option string) : string :=
  if decide (currentTheme = Some "dark") then "light" else "dark".

(** Lines 34-46: the click handler of the toggle button. *)
Definition toggle_click (s : page) : page :=
  let currentTheme := html_attrs s !! "data-theme" in
  let newTheme := newTheme_of currentTheme in
  let s1 := setAttribute "data-theme" newTheme s in
  let s2 := setItem "theme" newTheme s1 in
  let s3 := updateThemeIcon newTheme s2 in
  if updateCanvasTheme_set s3 then updateCanvasTheme newTheme s3 else s3.

(** The current theme state and the persisted value. *)
Definition theme_state (s : page) : option string :=
  html_attrs s !! "data-theme".
Definition persisted_theme (s : page) : option string :=
  localStorage s !! "theme".

(** *** Rendering of the content tables *)

Definition tag_span (tag : string) : string :=
  ("<span class=" ++ q "tag" ++ ">" ++ tag ++ "</span>")%string.

Definition arrow_svg : string :=
  ("<svg width=" ++ q "12" ++ " height=" ++ q "12" ++ " viewBox="
   ++ q "0 0 24 24" ++ " fill=" ++ q "none" ++ " stroke="
   ++ q "currentColor" ++ " stroke-width=" ++ q "2"
   ++ " stroke-linecap=" ++ q "round" ++ " stroke-linejoin=" ++ q "round"
   ++ "><line x1=" ++ q "7" ++ " y1=" ++ q "17" ++ " x2=" ++ q "17"
   ++ " y2=" ++ q "7" ++ "></line><polyline points="
   ++ q "7 7 17 7 17 17" ++ "></polyline></svg>")%string.

(** Lines 62-75: the template literal of a project card. *)
Definition project_card_html (project : Project.t) : string :=
  (nl
   ++ "        <div class=" ++ q "project-content" ++ ">" ++ nl
   ++ "            <h3 class=" ++ q "project-title" ++ ">"
   ++ Project.title project ++ "</h3>" ++ nl
   ++ "            <p class=" ++ q "project-desc" ++ ">"
   ++ Project.description project ++ "</p>" ++ nl
   ++ "        </div>" ++ nl
   ++ "        <div class=" ++ q "project-footer" ++ ">" ++ nl
   ++ "            <div class=" ++ q "project-tags" ++ ">" ++ nl
   ++ "                "
   ++ join_empty (map tag_span (Project.tags project)) ++ nl
   ++ "            </div>" ++ nl
   ++ "            <a href=" ++ q (Project.link project) ++ " target="
   ++ q "_blank" ++ " class=" ++ q "project-link-icon" ++ " aria-label="
   ++ q "View Project" ++ ">" ++ nl
   ++ "                " ++ arrow_svg ++ nl
   ++ "            </a>" ++ nl
   ++ "        </div>" ++ nl
   ++ "        ")%string.

(** Lines 55-92: the card built for one project. *)
Definition project_card (project : Project.t) : element :=
  mkElement "project-card" (project_card_html project)
            [("mousemove", Spotlight); ("click", OpenLink (Project.link project))]
            (Some "pointer").

(** Lines 105-114: the template literal of an organization card. *)
Definition org_card_html (org : Org.t) : string :=
  (nl
   ++ "            <div class=" ++ q "org-icon" ++ ">" ++ nl
   ++ "                <img src=" ++ q (Org.icon org) ++ " alt="
   ++ q (Org.name org) ++ ">" ++ nl
   ++ "            </div>" ++ nl
   ++ "            <div class=" ++ q "org-info" ++ ">" ++ nl
   ++ "                <h3>" ++ Org.name org ++ "</h3>" ++ nl
   ++ "                <p>" ++ Org.description org ++ "</p>" ++ nl
   ++ "                <a href=" ++ q (Org.link org) ++ " target="
   ++ q "_blank" ++ " class=" ++ q "org-link"
   ++ ">View Organization &rarr;</a>" ++ nl
   ++ "            </div>" ++ nl
   ++ "        ")%string.

Definition org_card (org : Org.t) : element :=
  mkElement "org-card" (org_card_html org) [] None.

(** [container.appendChild(card)] *)
Definition appendChild (kids : list element) (card : element) : list element :=
  kids ++ [card].

(** [table.forEach(r => container.appendChild(card(r)))] *)
Definition append_cards {A} (card : A → element) (table : list A)
    (kids : list element) : list element :=
  fold_left (λ acc r, appendChild acc (card r)) table kids.

(** Lines 50-96. [innerHTML = ''] empties the container first. *)
Definition render_projects (projects : list Project.t) (s : page) : page :=
  match projectsContainer s with
  | Some _ =>
      let cleared : list element := [] in
      mkPage (html_attrs s) (localStorage s)
             (sunIcon_display s) (moonIcon_display s)
             (updateCanvasTheme_set s) (canvasTheme s)
             (Some (append_cards project_card projects cleared))
             (orgContainer s)
  | None => s
  end.

(** Lines 99-117. *)
Definition render_organizations (organizations : list Org.t) (s : page) : page :=
  match orgContainer s with
  | Some _ =>
      let cleared : list element := [] in
      mkPage (html_attrs s) (localStorage s)
             (sunIcon_display s) (moonIcon_display s)
             (updateCanvasTheme_set s) (canvasTheme s)
             (projectsContainer s)
             (Some (append_cards org_card organizations cleared))
  | None => s
  end.

(** A page on first visit: nothing stored, both containers present and
    empty, the script's theme set-up done. *)
Definition first_visit : page :=
  load_theme (mkPage ∅ ∅ "block" "none" true "dark" (Some []) (Some [])).

(** A page loaded with a stored theme that is neither light nor dark. *)
Definition stored_sepia : page :=
  load_theme (mkPage ∅ {[ "theme" := "sepia" ]} "block" "none" true "sepia"
                     (Some []) (Some [])).

(** The same page after the two render blocks have run. *)
Definition rendered : page :=
  render_organizations organizations (render_projects projects first_visit).

(** A document that has neither container. *)
Definition bare : page :=
  load_theme (mkPage ∅ ∅ "block" "none" true "dark" None None).

End Page.

(** ** Text scramble effect *)

Module TextScramble.

(** A JavaScript string as its UTF-16 code units. *)
Definition code_unit := N.
Definition jsstring := list code_unit.

Definition of_ascii (s : string) : jsstring :=
  map Ascii.N_of_ascii (String.list_ascii_of_string s).

(** [s[i]]: a one-unit string, or undefined out of range. *)
Definition js_index (s : jsstring) (i : Z) : option jsstring :=
  if (i <? 0)%Z then None
  else match s !! Z.to_nat i with
       | Some c => Some [c]
       | None => None
       end.

(** Truthiness of a value that is a string or undefined. *)
Definition truthy (v : option jsstring) : bool :=
  match v with
  | Some (_ :: _) => true
  | _ => false
  end.

(** [v || ''] *)
Definition or_empty (v : option jsstring) : jsstring :=
  if truthy v then default [] v else [].

(** String conversion inside a template literal. *)
Definition to_string (v : option jsstring) : jsstring :=
  match v with
  | Some s => s
  | None => of_ascii "undefined"
  end.

(** One entry of [this.queue]; [char] is undefined until first rolled. *)
Record slot := mkSlot {
  from : jsstring;
  to : jsstring;
  start : Z;
  end_ : Z;
  char : option jsstring
}.

(** Fields of the instance, followed by the browser state it acts on:
    the element's markup, the animation-frame callbacks of this instance
    that are scheduled, the handle and promise counters, the promises
    already resolved and the number of [Math.random()] calls made. *)
Record state := mkState {
  chars : jsstring;
  queue : list slot;
  frame : Z;
  frameRequest : option nat;
  resolve : option nat;
  el_innerHTML : jsstring;
  raf_pending : gset nat;
  raf_next : nat;
  promise_next : nat;
  resolved : gset nat;
  rng : nat
}.

(** The literal assigned to [this.chars] (28 code units). *)
Definition scramble_chars : jsstring :=
  of_ascii "!<>-_\/[]{}" ++ [226; 8364; 8221]%N ++ of_ascii "=+*^?#________".

Inductive event :=
| SetText (newText : jsstring)   (* a call of setText *)
| AnimationFrame (h : nat).      (* the browser runs callback [h] *)

Section WithBrowser.
(** Successive results of [Math.random()]. *)
Variable Math_random : nat → Q.
(** The text the browser reports as [innerText] for given markup. *)
Variable innerText_of : jsstring → jsstring.

(** [Math.floor(Math.random() * n)] with the [k]-th random number. The
    product is taken exactly; the code floors the product rounded to a
    double, which at some draws is the next integer, but lies in the same
    range: for a double in [0,1) it is at least 0 and below [n]. *)
Definition random_below (k : nat) (n : Z) : Z :=
  Qfloor (Math_random k * inject_Z n).

(** [new TextScramble(el)]; [queue], [frame], [frameRequest] and
    [resolve] are undefined until [setText] assigns them. *)
Definition new (markup : jsstring) : state :=
  mkState scramble_chars [] 0 None None markup ∅ 0 0 ∅ 0.

Definition randomChar (s_chars : jsstring) (k : nat) : option jsstring :=
  js_index s_chars (random_below k (Z.of_nat (length s_chars))).

(** Lines 358-364: slots [i .. i+n-1]; each takes two random numbers. *)
Fixpoint build_queue (oldText newText : jsstring) (i n k : nat)
    : list slot * nat :=
  match n with
  | O => ([], k)
  | S n' =>
      let from := or_empty (js_index oldText (Z.of_nat i)) in
      let to := or_empty (js_index newText (Z.of_nat i)) in
      let start := random_below k 40 in
      let end_ := (start + random_below (S k) 40)%Z in
      let '(rest, k') := build_queue oldText newText (S i) n' (S (S k)) in
      (mkSlot from to start end_ None :: rest, k')
  end.

Definition dud (c : option jsstring) : jsstring :=
  of_ascii "<span class=" ++ [34%N] ++ of_ascii "dud" ++ [34%N]
  ++ of_ascii ">" ++ to_string c ++ of_ascii "</span>".

(** Result of the loop of lines 374-388. *)
Record pass := mkPass {
  p_queue : list slot;
  p_output : jsstring;
  p_complete : nat;
  p_rng : nat
}.

(** One iteration of the loop body, on slot [sl]. *)
Definition update_slot (s_chars : jsstring) (fr : Z) (sl : slot) (k : nat)
    : slot * jsstring * bool * nat :=
  if (end_ sl <=? fr)%Z then (sl, to sl, true, k)
  else if (start sl <=? fr)%Z then
    if negb (truthy (char sl)) then
      let c := randomChar s_chars k in
      (mkSlot (from sl) (to sl) (start sl) (end_ sl) c, dud c, false, S k)
    else if Qlt_le_dec (Math_random k) (28 # 100) then
      let c := randomChar s_chars (S k) in
      (mkSlot (from sl) (to sl) (start sl) (end_ sl) c, dud c, false, S (S k))
    else (sl, dud (char sl), false, S k)
  else (sl, from sl, false, k).

Fixpoint update_loop (s_chars : jsstring) (fr : Z) (qu : list slot)
    (output : jsstring) (complete : nat) (k : nat) : pass :=
  match qu with
  | [] => mkPass [] output complete k
  | sl :: rest =>
      let '(sl', out, settles, k') := update_slot s_chars fr sl k in
      let r := update_loop s_chars fr rest (output ++ out)
                 (if settles then S complete else complete) k' in
      mkPass (sl' :: p_queue r) (p_output r) (p_complete r) (p_rng r)
  end.

(** Lines 371-396. *)
Definition update (s : state) : state :=
  let r := update_loop (chars s) (frame s) (queue s) [] 0 (rng s) in
  if decide (p_complete r = length (p_queue r)) then
    (* this.resolve() *)
    mkState (chars s) (p_queue r) (frame s) (frameRequest s) (resolve s)
            (p_output r) (raf_pending s) (raf_next s) (promise_next s)
            (match resolve s with
             | Some p => {[p]} ∪ resolved s
             | None => resolved s
             end)
            (p_rng r)
  else
    (* this.frameRequest = requestAnimationFrame(this.update); this.frame++ *)
    let h := raf_next s in
    mkState (chars s) (p_queue r) (frame s + 1) (Some h) (resolve s)
            (p_output r) ({[h]} ∪ raf_pending s) (S h) (promise_next s)
            (resolved s) (p_rng r).

(** [cancelAnimationFrame(this.frameRequest)] *)
Definition cancelAnimationFrame (h : option nat) (pending : gset nat)
    : gset nat :=
  match h with
  | Some h => pending ∖ {[h]}
  | None => pending
  end.

(** Lines 353-369; returns the new state and the promise handed back. *)
Definition setText (newText : jsstring) (s : state) : state * nat :=
  let oldText := innerText_of (el_innerHTML s) in
  let len := Nat.max (length oldText) (length newText) in
  let promise := promise_next s in
  let '(qu, k) := build_queue oldText newText 0 len (rng s) in
  let pending := cancelAnimationFrame (frameRequest s) (raf_pending s) in
  (update
     (mkState (chars s) qu 0 (frameRequest s) (Some promise)
              (el_innerHTML s) pending (raf_next s) (S promise)
              (resolved s) k),
   promise).

(** One event of the page's single thread. A frame callback runs only
    if it is still scheduled, and is unscheduled when it runs. *)
Definition step (s : state) (e : event) : state :=
  match e with
  | SetText newText => (setText newText s).1
  | AnimationFrame h =>
      if decide (h ∈ raf_pending s) then
        update
          (mkState (chars s) (queue s) (frame s) (frameRequest s)
                   (resolve s) (el_innerHTML s) (raf_pending s ∖ {[h]})
                   (raf_next s) (promise_next s) (resolved s) (rng s))
      else s
  end.

Definition run (evs : list event) (s : state) : state :=
  fold_left step evs s.

(** The browser runs the callback last requested by the instance. *)
Definition next_frame (s : state) : state :=
  match frameRequest s with
  | Some h => step s (AnimationFrame h)
  | None => s
  end.

Definition frames (n : nat) (s : state) : state :=
  Nat.iter n next_frame s.

End WithBrowser.

(** *** Vocabulary of the properties *)

(** The part of a slot that [update] never changes. *)
Definition skeleton (sl : slot) : jsstring * jsstring * Z * Z :=
  (from sl, to sl, start sl, end_ sl).

(** The frame counter has reached the slot's end frame. *)
Definition settled (fr : Z) (sl : slot) : Prop := (end_ sl ≤ fr)%Z.

(** The start frame is an integer of [0,40) and the end frame is the
    start frame plus an integer of [0,40). *)
Definition in_range (sl : slot) : Prop :=
  (0 ≤ start sl < 40)%Z
  ∧ ∃ d : Z, (0 ≤ d < 40)%Z ∧ end_ sl = (start sl + d)%Z.

(** No frame callback of the instance is scheduled except the one whose
    handle is in [frameRequest], and handles in use are below the next
    one to be handed out. *)
Definition single_loop (s : state) : Prop :=
  (∀ h, h ∈ raf_pending s → frameRequest s = Some h)
  ∧ (∀ h, h ∈ raf_pending s → h < raf_next s).

(** Promise [p] was handed out earlier, is not resolved, and is not the
    one the instance would resolve. *)
Definition orphaned (p : nat) (s : state) : Prop :=
  (p ∉ resolved s) ∧ resolve s ≠ Some p ∧ p < promise_next s.

(** A [Math.random] that cycles through hundredths, and a browser whose
    [innerText] is the markup itself (true of markup without tags). *)
Definition sample_random (k : nat) : Q :=
  Qmake (Z.of_nat ((k * 37 + 11) mod 100)) 100.
Definition plain_text (markup : jsstring) : jsstring := markup.

(** The text a browser reports for markup made of character data and
    tags: everything from a [<] to the next [>] is dropped. [in_tag] says
    whether the scan is inside a tag. *)
Fixpoint strip_tags_from (in_tag : bool) (markup : jsstring) : jsstring :=
  match markup with
  | [] => []
  | c :: rest =>
      if in_tag then strip_tags_from (negb (c =? 62)%N) rest
      else if (c =? 60)%N then strip_tags_from true rest
      else c :: strip_tags_from false rest
  end.

Definition strip_tags (markup : jsstring) : jsstring :=
  strip_tags_from false markup.

(** Lines 408-410: the callback of the subtitle's timer, which scrambles
    the element towards the text it already shows. *)
Definition scramble_in_place (Math_random : nat → Q)
    (innerText_of : jsstring → jsstring) (s : state) : state * nat :=
  setText Math_random innerText_of (innerText_of (el_innerHTML s)) s.

(** The frame counter has not reached the slot's start frame. *)
Definition unstarted (fr : Z) (sl : slot) : Prop := (fr < start sl)%Z.

(** The glyph kept in a slot, if any, is one character of [glyphs]. *)
Definition glyph_ok (glyphs : jsstring) (sl : slot) : Prop :=
  char sl = None ∨ ∃ c, char sl = Some [c] ∧ c ∈ glyphs.

(** Promises handed out so far are below the next one to be handed out. *)
Definition promises_fresh (s : state) : Prop :=
  (∀ p, p ∈ resolved s → p < promise_next s)
  ∧ (∀ p, resolve s = Some p → p < promise_next s).

(** The events in which the browser runs the callbacks [hs] in turn. *)
Definition frame_events (hs : list nat) : list event := map AnimationFrame hs.

(** The instance has glyphs to choose from and has only kept such. *)
Definition glyphs_ok (s : state) : Prop :=
  chars s ≠ [] ∧ Forall (glyph_ok (chars s)) (queue s).

End TextScramble.

(** ** Particle canvas *)

Module Particle.

Local Open Scope R_scope.

(** The arithmetic of JavaScript numbers, as operations on the reals that
    the doubles denote. Comparisons of doubles are exact and need no
    counterpart here. *)
Record arith := mkArith {
  add : R → R → R;
  sub : R → R → R;
  mul : R → R → R;
  div : R → R → R;
  Math_sqrt : R → R
}.

(** Arithmetic without rounding. *)
Definition exact : arith := mkArith Rplus Rminus Rmult Rdiv sqrt.

(** Addition rounds with relative error at most [u] (for doubles,
    [u] is 2^-53). *)
Definition add_rounds (A : arith) (u : R) : Prop :=
  ∀ a b, Rabs (add A a b - (a + b)) <= u * Rabs (a + b).

(** The unit roundoff of doubles. *)
Definition unit_roundoff : R := 1 / 2 ^ 53.

(** Multiplication by -1 only flips the sign, as it does on doubles. *)
Definition mul_flips (A : arith) : Prop :=
  ∀ a, mul A a (-1) = - a.

Record t := mk {
  x : R;
  y : R;
  vx : R;
  vy : R;
  size : R
}.

Definition ltb (a b : R) : bool := if Rlt_dec a b then true else false.

(** Lines 270-275. [width] and [height] are the canvas extent. *)
Definition update (A : arith) (width height : R) (p : t) : t :=
  let x1 := add A (x p) (vx p) in
  let y1 := add A (y p) (vy p) in
  let vx1 := if ltb x1 0 || ltb width x1 then mul A (vx p) (-1) else vx p in
  let vy1 := if ltb y1 0 || ltb height y1 then mul A (vy p) (-1) else vy p in
  mk x1 y1 vx1 vy1 (size p).

(** Velocity negation, as used by the reversibility property. *)
Definition negate_velocity (p : t) : t :=
  mk (x p) (y p) (- vx p) (- vy p) (size p).

(** Successive updates, the canvas extent of each frame given by [dims]
    (it changes when the window is resized). *)
Definition updates (A : arith) (dims : list (R * R)) (p : t) : t :=
  fold_left (λ p d, update A d.1 d.2 p) dims p.

(** Canvas operations of one frame. A stroke records the array indices of
    the two particles of the loop iteration that issued it; they are not
    part of what the canvas receives. *)
Inductive op :=
| ClearRect (w h : R)
| Disc (light : bool) (cx cy radius : R)
| Stroke (index j : nat) (light : bool) (opacity : R) (x1 y1 x2 y2 : R).

(** Lines 298-300. *)
Definition dist (A : arith) (p p2 : t) : R :=
  let dx := sub A (x p) (x p2) in
  let dy := sub A (y p) (y p2) in
  Math_sqrt A (add A (mul A dx dx) (mul A dy dy)).

(** Lines 301-315: the conditional stroke between [p] and [p2]. *)
Definition connect (A : arith) (light : bool) (index j : nat) (p p2 : t)
    : list op :=
  let d := dist A p p2 in
  if ltb d 120 then
    let lineOpacity :=
      if light then sub A (3 / 100) (div A d 4000)
      else sub A (5 / 100) (div A d 2400) in
    [Stroke index j light lineOpacity (x p) (y p) (x p2) (y p2)]
  else [].

(** Lines 296-316: the inner loop, over the particles after [index]. *)
Fixpoint connect_rest (A : arith) (light : bool) (index j : nat) (p : t)
    (rest : list t) : list op :=
  match rest with
  | [] => []
  | p2 :: rest' =>
      connect A light index j p p2 ++ connect_rest A light index (S j) p rest'
  end.

(** Lines 293-317: [forEach] from position [index] on. A particle is
    updated when its turn comes, so the inner loop compares the moved
    [p] with particles that have not moved yet in this frame. *)
Fixpoint network_from (A : arith) (width height : R) (light : bool)
    (index : nat) (ps : list t) : list t * list op :=
  match ps with
  | [] => ([], [])
  | p :: rest =>
      let p1 := update A width height p in
      let here := Disc light (x p1) (y p1) (size p1)
                  :: connect_rest A light index (S index) p1 rest in
      let '(rest1, ops) := network_from A width height light (S index) rest in
      (p1 :: rest1, here ++ ops)
  end.

(** Lines 291-319: one frame (the request for the next one left out). *)
Definition animateNetwork (A : arith) (width height : R)
    (canvasTheme : string) (particles : list t) : list t * list op :=
  let light := bool_decide (canvasTheme = "light") in
  let '(ps, ops) := network_from A width height light 0 particles in
  (ps, ClearRect width height :: ops).

(** A line between particles [i] and [j] is among the operations. *)
Definition line_drawn (i j : nat) (ops : list op) : Prop :=
  ∃ light opacity x1 y1 x2 y2,
    Stroke i j light opacity x1 y1 x2 y2 ∈ ops.




(** The bound within which a position comes back after a step, a velocity
    negation and another step, for additions of relative error [u]. *)
Definition tolerance (u pos vel : R) : R :=
  u * (2 + u) * (Rabs pos + Rabs vel).

(** Three particles on an 800 by 600 canvas: the second is 50 units
    from where the first is after its move, the third is exactly 120
    units from it. *)
Definition sample : list t :=
  [ mk 100 100 (1 / 10) 0 1; mk (1501 / 10) 100 0 (1 / 10) 1;
    mk (1001 / 10) 220 0 0 1 ].

(** Lines 262-268: [new Particle()], with the five results of
    [Math.random()] in the order they are drawn. *)
Definition constructor (A : arith) (width height r1 r2 r3 r4 r5 : R) : t :=
  mk (mul A r1 width)
     (mul A r2 height)
     (mul A (sub A r3 (5 / 10)) (3 / 10))
     (mul A (sub A r4 (5 / 10)) (3 / 10))
     (add A (mul A r5 (15 / 10)) (5 / 10)).

(** The discs among the operations of a frame, and the index pairs of
    its strokes, both in the order issued. *)
Fixpoint discs (ops : list op) : list (bool * R * R * R) :=
  match ops with
  | [] => []
  | Disc light cx cy radius :: rest => (light, cx, cy, radius) :: discs rest
  | _ :: rest => discs rest
  end.

Fixpoint stroke_pairs (ops : list op) : list (nat * nat) :=
  match ops with
  | [] => []
  | Stroke index j _ _ _ _ _ _ :: rest => (index, j) :: stroke_pairs rest
  | _ :: rest => stroke_pairs rest
  end.

(** [row index j n] is [(index, j); (index, j+1); ...], [n] pairs.
    [pairs_from index n] lists the pairs [(i, j)] with [i < j] among the
    [n] array positions from [index] on, row by row. *)
Fixpoint row (index j n : nat) : list (nat * nat) :=
  match n with
  | O => []
  | S n' => (index, j) :: row index (S j) n'
  end.

Fixpoint pairs_from (index n : nat) : list (nat * nat) :=
  match n with
  | O => []
  | S n' => row index (S index) n' ++ pairs_from (S index) n'
  end.

(** A coordinate is at most one step outside [0, lim], and when it is
    outside the velocity points back in. *)
Definition near (lim pos vel : R) : Prop :=
  - Rabs vel <= pos <= lim + Rabs vel
  ∧ (pos < 0 → 0 < vel)
  ∧ (lim < pos → vel < 0).

End Particle.

(** ** Cursor follower *)

Module Cursor.

Local Open Scope R_scope.

(** The variables of lines 123-125, the follower's opacity, and the
    position last handed to [gsap.set] ([None] before the first call). *)
Record state := mkState {
  mouseX : R;
  mouseY : R;
  cursorX : R;
  cursorY : R;
  isCursorInit : bool;
  opacity : option string;
  placed : option (R * R)
}.

Definition initial : state :=
  mkState (-100) (-100) (-100) (-100) false None None.

(** Lines 127-137: the [mousemove] listener. *)
Definition mousemove (clientX clientY : R) (s : state) : state :=
  if isCursorInit s then
    mkState clientX clientY (cursorX s) (cursorY s) true (opacity s) (placed s)
  else
    mkState clientX clientY clientX clientY true (Some "1") (placed s).

(** Lines 140-149: one run of [animateCursor]; [deltaRatio] is what
    [gsap.ticker.deltaRatio()] returns for the frame. *)
Definition animateCursor (A : Particle.arith) (Math_pow : R → R → R)
    (deltaRatio : R) (s : state) : state :=
  if isCursorInit s then
    let dt :=
      Particle.sub A 1 (Math_pow (Particle.sub A 1 (2 / 10)) deltaRatio) in
    let cx :=
      Particle.add A (cursorX s)
        (Particle.mul A (Particle.sub A (mouseX s) (cursorX s)) dt) in
    let cy :=
      Particle.add A (cursorY s)
        (Particle.mul A (Particle.sub A (mouseY s) (cursorY s)) dt) in
    mkState (mouseX s) (mouseY s) cx cy true (opacity s) (Some (cx, cy))
  else s.

(** Successive frames, with the delta ratio of each. *)
Definition animate (A : Particle.arith) (Math_pow : R → R → R)
    (ratios : list R) (s : state) : state :=
  fold_left (λ s r, animateCursor A Math_pow r s) ratios s.

(** The identities of number arithmetic that the snap on the first
    pointer move relies on; doubles satisfy them for finite values. *)
Definition cancels (A : Particle.arith) : Prop :=
  (∀ a, Particle.sub A a a = 0)
  ∧ (∀ d, Particle.mul A 0 d = 0)
  ∧ (∀ c, Particle.add A c 0 = c).

End Cursor.

(** ** Magnetic buttons *)

Module Magnetic.

Local Open Scope R_scope.

(** What [getBoundingClientRect()] returns. *)
Record rect := mkRect {
  left : R;
  top : R;
  width : R;
  height : R
}.

(** Lines 327-337: the offset the [mousemove] listener asks [gsap.to] to
    move the button to. *)
Definition mousemove (A : Particle.arith) (clientX clientY : R) (r : rect)
    : R * R :=
  let x :=
    Particle.sub A (Particle.sub A clientX (left r))
      (Particle.div A (width r) 2) in
  let y :=
    Particle.sub A (Particle.sub A clientY (top r))
      (Particle.div A (height r) 2) in
  (Particle.mul A x (3 / 10), Particle.mul A y (3 / 10)).

(** Lines 340-342: the offset asked for when the pointer leaves. *)
Definition mouseleave : R * R := (0, 0).

End Magnetic.

(** * Properties *)

(** ** Theme controller *)

Module ThemeFacts.
Import Page.

Lemma theme_state_updateThemeIcon theme s :
  theme_state (updateThemeIcon theme s) = theme_state s.
Proof. unfold updateThemeIcon. by case_decide. Qed.

Lemma persisted_updateThemeIcon theme s :
  persisted_theme (updateThemeIcon theme s) = persisted_theme s.
Proof. unfold updateThemeIcon. by case_decide. Qed.

Lemma theme_state_toggle s :
  theme_state (toggle_click s) = Some (newTheme_of (theme_state s)).
Proof.
  unfold toggle_click, theme_state, updateThemeIcon.
  case_decide; cbn; destruct (updateCanvasTheme_set s); cbn;
    apply lookup_insert_eq.
Qed.

Lemma persisted_toggle s :
  persisted_theme (toggle_click s) = Some (newTheme_of (theme_state s)).
Proof.
  unfold toggle_click, persisted_theme, theme_state, updateThemeIcon.
  case_decide; cbn; destruct (updateCanvasTheme_set s); cbn;
    apply lookup_insert_eq.
Qed.

(** C10. Whatever the current theme value is (also a missing or an
    unrecognized one), one toggle sets both the theme state and the
    persisted value to dark when the current value is not exactly dark,
    and to light when it is; so both end up light or dark. *)
Theorem toggle_click_new_theme (s : page) :
  let new := if decide (theme_state s = Some "dark") then "light" else "dark" in
  theme_state (toggle_click s) = Some new
  ∧ persisted_theme (toggle_click s) = Some new
  ∧ (new = "light" ∨ new = "dark").
Proof.
  cbn zeta. rewrite theme_state_toggle, persisted_toggle.
  unfold newTheme_of. case_decide; auto.
Qed.

(** C5, as stated, fails. On a first visit the theme state is dark and
    nothing is persisted; after two toggles dark is persisted. And when
    the stored theme is sepia, which the page takes as its theme state,
    two toggles leave the theme state light. *)
Lemma toggle_twice_not_identity :
  (theme_state first_visit = Some "dark"
   ∧ persisted_theme first_visit = None
   ∧ persisted_theme (toggle_click (toggle_click first_visit)) = Some "dark")
  ∧ (theme_state stored_sepia = Some "sepia"
     ∧ theme_state (toggle_click (toggle_click stored_sepia)) = Some "light")
  ∧ ¬ (∀ s : page,
         theme_state (toggle_click (toggle_click s)) = theme_state s
         ∧ persisted_theme (toggle_click (toggle_click s)) = persisted_theme s).
Proof.
  split; [|split].
  - rewrite persisted_toggle, theme_state_toggle. by vm_compute.
  - rewrite !theme_state_toggle. by vm_compute.
  - intros H. destruct (H first_visit) as [_ Hp].
    rewrite persisted_toggle in Hp. discriminate Hp.
Qed.

(** C5, amended. When the theme state is light or dark, two toggles
    return the theme state to what it was and leave the persisted value
    equal to it; the persisted value is thus restored whenever it agreed
    with the theme state before the first toggle. *)
Theorem toggle_click_twice (s : page) :
  theme_state s = Some "light" ∨ theme_state s = Some "dark" →
  theme_state (toggle_click (toggle_click s)) = theme_state s
  ∧ persisted_theme (toggle_click (toggle_click s)) = theme_state s
  ∧ (persisted_theme s = theme_state s →
     persisted_theme (toggle_click (toggle_click s)) = persisted_theme s).
Proof.
  intros Hs.
  assert (Some (newTheme_of (Some (newTheme_of (theme_state s)))) = theme_state s)
    as Hback.
  { destruct Hs as [-> | ->]; reflexivity. }
  rewrite theme_state_toggle, persisted_toggle, !theme_state_toggle.
  rewrite Hback. split; [done | split; [done | congruence]].
Qed.

Lemma toggle_click_twice_witness :
  let s := toggle_click first_visit in
  theme_state (toggle_click (toggle_click s)) = theme_state s
  ∧ persisted_theme (toggle_click (toggle_click s)) = theme_state s
  ∧ (persisted_theme s = theme_state s →
     persisted_theme (toggle_click (toggle_click s)) = persisted_theme s).
Proof.
  apply (toggle_click_twice (toggle_click first_visit)).
  left. vm_compute. reflexivity.
Defined.

End ThemeFacts.

(** ** Content renderer *)

Module RenderFacts.
Import Page.

Lemma append_cards_map {A} (card : A → element) table kids :
  append_cards card table kids = kids ++ map card table.
Proof.
  unfold append_cards, appendChild.
  revert kids. induction table as [|r table IH]; intros kids; cbn.
  - by rewrite app_nil_r.
  - rewrite IH. by rewrite <- app_assoc.
Qed.

Lemma render_projects_present (table : list Project.t) s prior :
  projectsContainer s = Some prior →
  render_projects table s
  = mkPage (html_attrs s) (localStorage s) (sunIcon_display s)
           (moonIcon_display s) (updateCanvasTheme_set s) (canvasTheme s)
           (Some (map project_card table)) (orgContainer s).
Proof.
  intros H. unfold render_projects. rewrite H.
  by rewrite append_cards_map.
Qed.

Lemma render_organizations_present (table : list Org.t) s prior :
  orgContainer s = Some prior →
  render_organizations table s
  = mkPage (html_attrs s) (localStorage s) (sunIcon_display s)
           (moonIcon_display s) (updateCanvasTheme_set s) (canvasTheme s)
           (projectsContainer s) (Some (map org_card table)).
Proof.
  intros H. unfold render_organizations. rewrite H.
  by rewrite append_cards_map.
Qed.

(** C6. Rendering a table into a container that is present discards
    whatever the container held and leaves in it exactly the cards of the
    records, one per record and in table order: the [i]-th child is the
    card of the [i]-th record. This holds for projects and for
    organizations, whatever the tables contain. *)
Theorem render_one_card_per_record
    (ptable : list Project.t) (otable : list Org.t) (s : page) :
  (∀ prior,
      projectsContainer s = Some prior →
      ∃ kids,
        projectsContainer (render_projects ptable s) = Some kids
        ∧ length kids = length ptable
        ∧ ∀ i, kids !! i = project_card <$> ptable !! i)
  ∧ (∀ prior,
      orgContainer s = Some prior →
      ∃ kids,
        orgContainer (render_organizations otable s) = Some kids
        ∧ length kids = length otable
        ∧ ∀ i, kids !! i = org_card <$> otable !! i).
Proof.
  split; intros prior Hc.
  - exists (map project_card ptable).
    rewrite (render_projects_present _ _ _ Hc). cbn.
    split; [done|]. split; [apply length_map|].
    intros i. apply list_lookup_fmap.
  - exists (map org_card otable).
    rewrite (render_organizations_present _ _ _ Hc). cbn.
    split; [done|]. split; [apply length_map|].
    intros i. apply list_lookup_fmap.
Qed.

Lemma render_one_card_per_record_witness :
  (∃ kids,
      projectsContainer (render_projects projects rendered) = Some kids
      ∧ length kids = 8
      ∧ ∀ i, kids !! i = project_card <$> projects !! i)
  ∧ (∃ kids,
      orgContainer (render_organizations organizations rendered) = Some kids
      ∧ length kids = 2
      ∧ ∀ i, kids !! i = org_card <$> organizations !! i).
Proof.
  pose proof (render_one_card_per_record projects organizations rendered)
    as [Hp Ho].
  split.
  - apply (Hp (map project_card projects)). reflexivity.
  - apply (Ho (map org_card organizations)). reflexivity.
Defined.

(** C7. When the container of a table is not in the document, the
    render block does nothing at all: the page is left exactly as it
    was, so no card exists and nothing else has changed. The render
    functions are total, there is no failure to report. *)
Theorem render_skipped_when_absent
    (ptable : list Project.t) (otable : list Org.t) (s : page) :
  (projectsContainer s = None → render_projects ptable s = s)
  ∧ (orgContainer s = None → render_organizations otable s = s).
Proof.
  split; intros H.
  - unfold render_projects. by rewrite H.
  - unfold render_organizations. by rewrite H.
Qed.

Lemma render_skipped_when_absent_witness :
  render_projects projects bare = bare
  ∧ render_organizations organizations bare = bare.
Proof.
  pose proof (render_skipped_when_absent projects organizations bare)
    as [Hp Ho].
  split; [apply Hp | apply Ho]; reflexivity.
Defined.

End RenderFacts.

(** ** Particle canvas *)

Module ParticleFacts.
Import Particle.
Local Open Scope R_scope.

Lemma ltb_true a b : ltb a b = true ↔ a < b.
Proof. unfold ltb. destruct (Rlt_dec a b); split; intros; done. Qed.

Lemma ltb_false a b : ltb a b = false ↔ b <= a.
Proof.
  unfold ltb. destruct (Rlt_dec a b); split; intros; try done; lra.
Qed.

Lemma exact_add_rounds u : 0 <= u → add_rounds exact u.
Proof.
  intros Hu a b. cbn. rewrite Rminus_diag, Rabs_R0.
  apply Rmult_le_pos; [done | apply Rabs_pos].
Qed.

Lemma unit_roundoff_pos : 0 <= unit_roundoff.
Proof.
  unfold unit_roundoff. apply Rlt_le.
  apply Rdiv_lt_0_compat; [lra | apply pow_lt; lra].
Qed.

Lemma exact_mul_flips : mul_flips exact.
Proof. intros a. cbn. lra. Qed.

(** *** Velocity *)

(** One step leaves each velocity component as it is or negates it. *)
Lemma update_velocity A w h p :
  mul_flips A →
  (vx (update A w h p) = vx p ∨ vx (update A w h p) = - vx p)
  ∧ (vy (update A w h p) = vy p ∨ vy (update A w h p) = - vy p).
Proof.
  intros Hm. unfold update; cbn. split.
  - destruct (ltb _ 0 || ltb w _); [right; apply Hm | by left].
  - destruct (ltb _ 0 || ltb h _); [right; apply Hm | by left].
Qed.

Lemma update_speed A w h p :
  mul_flips A →
  Rabs (vx (update A w h p)) = Rabs (vx p)
  ∧ Rabs (vy (update A w h p)) = Rabs (vy p).
Proof.
  intros Hm.
  destruct (update_velocity A w h p Hm) as [[-> | ->] [-> | ->]];
    rewrite ?Rabs_Ropp; done.
Qed.

(** C9. However many update steps are taken, and whatever the canvas
    extent is at each of them, |vx| and |vy| are what they were at the
    start; a single step keeps each component or negates it. The only
    operation applied to a velocity is the multiplication by -1, which
    flips the sign. *)
Theorem velocity_magnitude_invariant (A : arith) (dims : list (R * R)) (p : t) :
  mul_flips A →
  Rabs (vx (updates A dims p)) = Rabs (vx p)
  ∧ Rabs (vy (updates A dims p)) = Rabs (vy p)
  ∧ ∀ w h,
      (vx (update A w h p) = vx p ∨ vx (update A w h p) = - vx p)
      ∧ (vy (update A w h p) = vy p ∨ vy (update A w h p) = - vy p).
Proof.
  intros Hm. split; [|split].
  - unfold updates. revert p.
    induction dims as [|[w h] dims IH]; intros p; cbn; [done|].
    rewrite IH. by apply update_speed.
  - unfold updates. revert p.
    induction dims as [|[w h] dims IH]; intros p; cbn; [done|].
    rewrite IH. by apply update_speed.
  - intros w h. by apply update_velocity.
Qed.

Lemma velocity_magnitude_invariant_witness :
  let p := mk (7995 / 10) 100 (1 / 10) (- (1 / 10)) 1 in
  let dims := [(800, 600); (800, 600); (640, 480)] in
  Rabs (vx (updates exact dims p)) = Rabs (vx p)
  ∧ Rabs (vy (updates exact dims p)) = Rabs (vy p)
  ∧ ∀ w h,
      (vx (update exact w h p) = vx p ∨ vx (update exact w h p) = - vx p)
      ∧ (vy (update exact w h p) = vy p ∨ vy (update exact w h p) = - vy p).
Proof.
  apply (velocity_magnitude_invariant exact).
  intros a. cbn. lra.
Defined.

(** *** Reversibility *)

(** A step, a negation and a step on one coordinate. *)
Lemma round_trip_bound A u pos vel :
  0 <= u → add_rounds A u →
  Rabs (add A (add A pos vel) (- vel) - pos) <= tolerance u pos vel.
Proof.
  intros Hu Ha. unfold tolerance.
  set (x1 := add A pos vel).
  pose proof (Ha pos vel) as H1. fold x1 in H1.
  pose proof (Ha x1 (- vel)) as H2.
  pose proof (Rabs_triang pos vel) as Hs.
  assert (Rabs (x1 + - vel) <= u * Rabs (pos + vel) + Rabs pos) as Ht.
  { replace (x1 + - vel) with ((x1 - (pos + vel)) + pos) by lra.
    eapply Rle_trans; [apply Rabs_triang|]. lra. }
  assert (Rabs (add A x1 (- vel) - pos)
          <= Rabs (add A x1 (- vel) - (x1 + - vel)) + Rabs (x1 - (pos + vel)))
    as Hg.
  { replace (add A x1 (- vel) - pos)
      with ((add A x1 (- vel) - (x1 + - vel)) + (x1 - (pos + vel))) by lra.
    apply Rabs_triang. }
  pose proof (Rabs_pos pos). pose proof (Rabs_pos vel).
  pose proof (Rabs_pos (pos + vel)). pose proof (Rabs_pos (x1 + - vel)).
  assert (u * Rabs (x1 + - vel) <= u * (u * Rabs (pos + vel) + Rabs pos))
    by (by apply Rmult_le_compat_l).
  assert (u * Rabs (pos + vel) <= u * (Rabs pos + Rabs vel))
    by (by apply Rmult_le_compat_l).
  assert (u * (u * Rabs (pos + vel)) <= u * (u * (Rabs pos + Rabs vel)))
    by (by apply Rmult_le_compat_l).
  assert (0 <= u * Rabs vel) by (by apply Rmult_le_pos).
  lra.
Qed.

(** C4. Take additions that round with relative error at most [u], as
    those of doubles do. For a point that is strictly inside the canvas
    before and after a step, stepping, negating the velocity and stepping
    again brings each coordinate back to within [u (2 + u) (|pos| + |vel|)]
    of where it was. *)
Theorem update_reversible (A : arith) (u w h : R) (p : t) :
  0 <= u → add_rounds A u →
  0 < x p < w → 0 < y p < h →
  0 < x (update A w h p) < w → 0 < y (update A w h p) < h →
  let back := update A w h (negate_velocity (update A w h p)) in
  Rabs (x back - x p) <= tolerance u (x p) (vx p)
  ∧ Rabs (y back - y p) <= tolerance u (y p) (vy p).
Proof.
  intros Hu Ha Hx Hy Hx1 Hy1.
  assert (vx (update A w h p) = vx p) as Evx.
  { cbn in *. replace (ltb _ 0 || ltb w _) with false; [done|].
    symmetry. apply orb_false_iff. split; apply ltb_false; lra. }
  assert (vy (update A w h p) = vy p) as Evy.
  { cbn in *. replace (ltb _ 0 || ltb h _) with false; [done|].
    symmetry. apply orb_false_iff. split; apply ltb_false; lra. }
  cbn zeta. unfold update at 1 3. unfold negate_velocity.
  cbn [x y vx vy]. rewrite Evx, Evy. cbn [update x y].
  split; by apply round_trip_bound.
Qed.

Lemma update_reversible_witness :
  let p := mk 100 100 (1 / 10) 0 1 in
  let back := update exact 800 600 (negate_velocity (update exact 800 600 p)) in
  Rabs (x back - 100) <= tolerance unit_roundoff 100 (1 / 10)
  ∧ Rabs (y back - 100) <= tolerance unit_roundoff 100 0.
Proof.
  apply (update_reversible exact unit_roundoff 800 600 (mk 100 100 (1 / 10) 0 1)).
  - apply unit_roundoff_pos.
  - apply exact_add_rounds, unit_roundoff_pos.
  - cbn; lra.
  - cbn; lra.
  - cbn; lra.
  - cbn; lra.
Defined.

(** Without rounding the position comes back exactly. *)
Lemma update_reversible_exact (w h : R) (p : t) :
  0 < x p < w → 0 < y p < h →
  0 < x p + vx p < w → 0 < y p + vy p < h →
  let back := update exact w h (negate_velocity (update exact w h p)) in
  x back = x p ∧ y back = y p.
Proof.
  intros Hx Hy Hx1 Hy1.
  assert (ltb (x p + vx p) 0 || ltb w (x p + vx p) = false) as Ex.
  { apply orb_false_iff. split; apply ltb_false; lra. }
  assert (ltb (y p + vy p) 0 || ltb h (y p + vy p) = false) as Ey.
  { apply orb_false_iff. split; apply ltb_false; lra. }
  cbn. rewrite Ex, Ey. split; lra.
Qed.

(** *** Connecting lines *)

Lemma elem_of_connect A o light i j p p2 :
  o ∈ connect A light i j p p2 ↔
  dist A p p2 < 120
  ∧ o = Stroke i j light
          (if light then sub A (3 / 100) (div A (dist A p p2) 4000)
           else sub A (5 / 100) (div A (dist A p p2) 2400))
          (x p) (y p) (x p2) (y p2).
Proof.
  unfold connect. destruct (ltb (dist A p p2) 120) eqn:E.
  - apply ltb_true in E. rewrite list_elem_of_singleton. tauto.
  - apply ltb_false in E. split.
    + intros H. by apply not_elem_of_nil in H.
    + intros [H _]. lra.
Qed.

Lemma elem_of_connect_rest A o light i j0 p rest :
  o ∈ connect_rest A light i j0 p rest ↔
  ∃ k p2, rest !! k = Some p2 ∧ o ∈ connect A light i (j0 + k) p p2.
Proof.
  revert j0. induction rest as [|p2 rest IH]; intros j0; cbn.
  - split; [intros H; by apply not_elem_of_nil in H|].
    intros (k & q2 & H & _). done.
  - rewrite elem_of_app, IH. split.
    + intros [H | (k & q2 & Hk & H)].
      * exists 0%nat, p2. by rewrite Nat.add_0_r.
      * exists (S k), q2. split; [done|].
        by replace (j0 + S k)%nat with (S j0 + k)%nat by lia.
    + intros (k & q2 & Hk & H). destruct k as [|k]; cbn in Hk.
      * left. injection Hk as ->. by rewrite Nat.add_0_r in H.
      * right. exists k, q2. split; [done|].
        by replace (S j0 + k)%nat with (j0 + S k)%nat by lia.
Qed.

Lemma network_from_ops A w h light i0 ps :
  (network_from A w h light i0 ps).2
  = match ps with
    | [] => []
    | p :: rest =>
        (Disc light (x (update A w h p)) (y (update A w h p))
              (size (update A w h p))
         :: connect_rest A light i0 (S i0) (update A w h p) rest)
        ++ (network_from A w h light (S i0) rest).2
    end.
Proof.
  destruct ps as [|p rest]; [done|]. cbn.
  by destruct (network_from A w h light (S i0) rest).
Qed.

(** The strokes of a frame, pair by pair. *)
Lemma stroke_in_network A w h light i0 ps i j l o x1 y1 x2 y2 :
  Stroke i j l o x1 y1 x2 y2 ∈ (network_from A w h light i0 ps).2 ↔
  ∃ k m p p2,
    i = (i0 + k)%nat ∧ j = (i0 + k + 1 + m)%nat
    ∧ ps !! k = Some p ∧ ps !! (k + 1 + m)%nat = Some p2
    ∧ Stroke i j l o x1 y1 x2 y2
        ∈ connect A light i j (update A w h p) p2.
Proof.
  revert i0. induction ps as [|p rest IH]; intros i0;
    rewrite network_from_ops.
  - split; [intros H; by apply not_elem_of_nil in H|].
    intros (k & m & q1 & q2 & _ & _ & H & _). done.
  - rewrite elem_of_app, elem_of_cons, elem_of_connect_rest, IH. split.
    + intros [[H | (m & q2 & Hm & H)] | (k & m & q1 & q2 & Ei & Ej & Hk & Hm & H)].
      * discriminate H.
      * pose proof H as H'. apply elem_of_connect in H' as [_ H'].
        injection H' as Ei Ej _ _ _ _ _ _.
        cbn [Nat.add] in H. rewrite <- Ej, <- Ei in H.
        exists 0%nat, m, p, q2.
        repeat split; try done; lia.
      * exists (S k), m, q1, q2.
        repeat split; try done; lia.
    + intros (k & m & q1 & q2 & Ei & Ej & Hk & Hm & H).
      destruct k as [|k]; cbn in Hk, Hm.
      * left. right. injection Hk as ->. exists m, q2. split; [done|].
        assert (i0 = i) as -> by lia.
        by assert ((S i + m)%nat = j) as -> by lia.
      * right. exists k, m, q1, q2.
        repeat split; try done; lia.
Qed.

Lemma line_drawn_animateNetwork A w h canvasTheme ps i j pi pj :
  ps !! i = Some pi → ps !! j = Some pj → (i < j)%nat →
  line_drawn i j (animateNetwork A w h canvasTheme ps).2
  ↔ dist A (update A w h pi) pj < 120.
Proof.
  intros Hi Hj Hij. unfold animateNetwork, line_drawn.
  set (light := bool_decide _).
  pose proof (stroke_in_network A w h light 0 ps i j) as Hs.
  destruct (network_from A w h light 0 ps) as [ps1 ops1]. cbn in *.
  split.
  - intros (l & o & x1 & y1 & x2 & y2 & H).
    apply elem_of_cons in H as [H | H]; [discriminate H|].
    apply Hs in H as (k & m & q1 & q2 & -> & -> & Hk & Hm & H).
    cbn in *. rewrite Hi in Hk. injection Hk as <-.
    rewrite Hj in Hm. injection Hm as <-.
    by apply elem_of_connect in H as [H _].
  - intros Hd.
    eexists light, _, (x (update A w h pi)), (y (update A w h pi)), (x pj), (y pj).
    apply elem_of_cons. right. apply Hs.
    exists i, (j - i - 1)%nat, pi, pj.
    replace (i + 1 + (j - i - 1))%nat with j by lia.
    repeat split; try done.
    apply elem_of_connect. split; [exact Hd | reflexivity].
Qed.




Lemma dist_sample_0_1 :
  dist exact (update exact 800 600 (mk 100 100 (1 / 10) 0 1))
       (mk (1501 / 10) 100 0 (1 / 10) 1)
  = 50.
Proof.
  unfold dist, update; cbn.
  replace ((100 + 1 / 10 - 1501 / 10) * (100 + 1 / 10 - 1501 / 10)
           + (100 + 0 - 100) * (100 + 0 - 100)) with (50 * 50) by lra.
  apply sqrt_square. lra.
Qed.

Lemma dist_sample_0_2 :
  dist exact (update exact 800 600 (mk 100 100 (1 / 10) 0 1))
       (mk (1001 / 10) 220 0 0 1)
  = 120.
Proof.
  unfold dist, update; cbn.
  replace ((100 + 1 / 10 - 1001 / 10) * (100 + 1 / 10 - 1001 / 10)
           + (100 + 0 - 220) * (100 + 0 - 220)) with (120 * 120) by lra.
  apply sqrt_square. lra.
Qed.

(** On the sample frame: a line at distance 50, none at exactly 120. *)
Example sample_lines :
  let ops := (animateNetwork exact 800 600 "dark" sample).2 in
  line_drawn 0 1 ops ∧ ¬ line_drawn 0 2 ops.
Proof.
  cbn zeta. split.
  - apply (line_drawn_animateNetwork exact 800 600 "dark" sample 0 1
             (mk 100 100 (1 / 10) 0 1) (mk (1501 / 10) 100 0 (1 / 10) 1));
      [reflexivity | reflexivity | lia |].
    rewrite dist_sample_0_1. lra.
  - intros H.
    apply (line_drawn_animateNetwork exact 800 600 "dark" sample 0 2
             (mk 100 100 (1 / 10) 0 1) (mk (1001 / 10) 220 0 0 1)) in H;
      [| reflexivity | reflexivity | lia].
    rewrite dist_sample_0_2 in H. lra.
Qed.

End ParticleFacts.

(** ** Text scramble *)

Module ScrambleFacts.
Import TextScramble.

Section Loop.
Variable Math_random : nat → Q.
Variable innerText_of : jsstring → jsstring.

Lemma update_slot_spec s_chars fr sl k :
  let r := update_slot Math_random s_chars fr sl k in
  skeleton r.1.1.1 = skeleton sl
  ∧ (r.1.2 = true ↔ settled fr sl)
  ∧ (settled fr sl → r = (sl, to sl, true, k)).
Proof.
  unfold update_slot, settled.
  destruct (Z.leb_spec (end_ sl) fr) as [He | He]; cbn.
  - split; [done|]. split; [tauto|]. done.
  - destruct (start sl <=? fr)%Z; cbn.
    + destruct (negb (truthy (char sl))); cbn;
        [| destruct (Qlt_le_dec _ _); cbn];
        (split; [done|]; split; [split; [done | lia] | lia]).
    + split; [done|]. split; [split; [done | lia] | lia].
Qed.

Lemma update_loop_spec s_chars fr qu output complete k :
  let r := update_loop Math_random s_chars fr qu output complete k in
  map skeleton (p_queue r) = map skeleton qu
  ∧ p_complete r ≤ complete + length qu
  ∧ (p_complete r = complete + length qu ↔ Forall (settled fr) qu)
  ∧ (Forall (settled fr) qu →
     p_output r = output ++ concat (map to qu) ∧ p_queue r = qu ∧ p_rng r = k).
Proof.
  revert output complete k.
  induction qu as [|sl rest IH]; intros output complete k; cbn.
  - rewrite app_nil_r, Nat.add_0_r. repeat split; auto.
  - pose proof (update_slot_spec s_chars fr sl k) as (Hsk & Hd & Hs).
    destruct (update_slot Math_random s_chars fr sl k) as [[[sl' out] done] k'].
    cbn in Hsk, Hd, Hs. cbn.
    specialize (IH (output ++ out) (if done then S complete else complete) k').
    destruct IH as (IH1 & IH2 & IH3 & IH4).
    split; [by rewrite Hsk, IH1|].
    split; [destruct done; lia|].
    split.
    + rewrite Forall_cons. destruct done.
      * assert (settled fr sl) as Hsl by by apply Hd.
        rewrite <- IH3.
        split; [intros; split; [done | lia] | intros [_ ?]; lia].
      * split; [intros; lia | intros [Hsl _]; by apply Hd in Hsl].
    + intros HF. apply Forall_cons in HF as [H1 H2].
      specialize (Hs H1). injection Hs as -> -> -> ->.
      destruct (IH4 H2) as (-> & -> & ->).
      by rewrite <- app_assoc.
Qed.

(** The two ways [update] can end. *)
Lemma update_cases (s : state) :
  let r := update_loop Math_random (chars s) (frame s) (queue s) [] 0 (rng s) in
  map skeleton (p_queue r) = map skeleton (queue s)
  ∧ ((Forall (settled (frame s)) (queue s)
      ∧ update Math_random s
        = mkState (chars s) (queue s) (frame s) (frameRequest s) (resolve s)
            (concat (map to (queue s))) (raf_pending s) (raf_next s)
            (promise_next s)
            (match resolve s with
             | Some p => {[p]} ∪ resolved s
             | None => resolved s
             end)
            (rng s))
     ∨ (¬ Forall (settled (frame s)) (queue s)
        ∧ update Math_random s
          = mkState (chars s) (p_queue r) (frame s + 1) (Some (raf_next s))
              (resolve s) (p_output r) ({[raf_next s]} ∪ raf_pending s)
              (S (raf_next s)) (promise_next s) (resolved s) (p_rng r))).
Proof.
  cbn zeta. unfold update.
  pose proof (update_loop_spec (chars s) (frame s) (queue s) [] 0 (rng s))
    as (H1 & H2 & H3 & H4).
  set (r := update_loop _ _ _ _ _ _ _) in *.
  split; [done|].
  assert (length (p_queue r) = length (queue s)) as Hlen.
  { by rewrite <- (length_map skeleton), H1, length_map. }
  rewrite Hlen. case_decide as Hc.
  - left. apply H3 in Hc. split; [done|].
    destruct (H4 Hc) as (-> & -> & ->). done.
  - right. split; [|done]. intros HF. apply Hc. by apply H3.
Qed.

(** [update] started with nothing scheduled keeps a single loop. *)
Lemma update_single_loop (s : state) :
  raf_pending s = ∅ → single_loop (update Math_random s).
Proof.
  intros He.
  destruct (update_cases s) as [_ [[_ ->] | [_ ->]]];
    unfold single_loop; cbn; rewrite He.
  - split; intros h Hh; set_solver.
  - split; intros h Hh;
      rewrite union_empty_r_L in Hh; apply elem_of_singleton in Hh;
      subst h; [done | lia].
Qed.

Lemma cancel_single_loop (s : state) :
  single_loop s →
  cancelAnimationFrame (frameRequest s) (raf_pending s) = ∅.
Proof.
  intros [H1 _]. unfold cancelAnimationFrame.
  destruct (frameRequest s) as [h|] eqn:E.
  - apply set_eq. intros h'. split; [|set_solver].
    intros Hh. apply elem_of_difference in Hh as [Hin Hne].
    specialize (H1 _ Hin). set_solver.
  - apply set_eq. intros h'. split; [|set_solver].
    intros Hh. specialize (H1 _ Hh). done.
Qed.

Lemma setText_unfold (newText : jsstring) (s : state) :
  let oldText := innerText_of (el_innerHTML s) in
  let len := Nat.max (length oldText) (length newText) in
  let b := build_queue Math_random oldText newText 0 len (rng s) in
  setText Math_random innerText_of newText s
  = (update Math_random
       (mkState (chars s) b.1 0 (frameRequest s) (Some (promise_next s))
          (el_innerHTML s)
          (cancelAnimationFrame (frameRequest s) (raf_pending s))
          (raf_next s) (S (promise_next s)) (resolved s) b.2),
     promise_next s).
Proof.
  cbn zeta. unfold setText.
  by destruct (build_queue _ _ _ _ _ _) as [qu k].
Qed.

Lemma step_single_loop (s : state) (e : event) :
  single_loop s → single_loop (step Math_random innerText_of s e).
Proof.
  intros Hs. destruct e as [newText | h]; cbn [step].
  - rewrite setText_unfold. cbn [fst].
    apply update_single_loop. cbn. by apply cancel_single_loop.
  - case_decide as Hin; [|done].
    apply update_single_loop. cbn.
    destruct Hs as [H1 _].
    apply set_eq. intros h'. split; [|set_solver].
    intros Hh. apply elem_of_difference in Hh as [Hin' Hne].
    pose proof (H1 _ Hin) as E1. pose proof (H1 _ Hin') as E2.
    rewrite E1 in E2. injection E2 as ->. set_solver.
Qed.

Lemma run_single_loop (evs : list event) (s : state) :
  single_loop s → single_loop (run Math_random innerText_of evs s).
Proof.
  unfold run. revert s.
  induction evs as [|e evs IH]; intros s Hs; cbn; [done|].
  apply IH. by apply step_single_loop.
Qed.

Lemma new_single_loop (markup : jsstring) : single_loop (new markup).
Proof. split; intros h Hh; cbn in Hh; set_solver. Qed.

Lemma single_loop_size (s : state) :
  single_loop s → size (raf_pending s) ≤ 1.
Proof.
  intros [H1 _]. destruct (frameRequest s) as [h|] eqn:E.
  - transitivity (size ({[h]} : gset nat)); [|rewrite size_singleton; lia].
    apply subseteq_size. intros h' Hh.
    specialize (H1 _ Hh). set_solver.
  - assert (raf_pending s = ∅) as ->; [|rewrite size_empty; lia].
    apply set_eq. intros h'. split; [|set_solver].
    intros Hh. specialize (H1 _ Hh). done.
Qed.

(** C2. In every state an instance can reach from its construction,
    through any sequence of [setText] calls and frame callbacks, at
    most one frame callback of the instance is scheduled; and a
    [setText] call made while one is scheduled cancels it: that handle
    is no longer scheduled afterwards. *)
Theorem at_most_one_update_loop (markup : jsstring) (evs : list event) :
  let s := run Math_random innerText_of evs (new markup) in
  size (raf_pending s) ≤ 1
  ∧ ∀ (newText : jsstring) (h : nat),
      h ∈ raf_pending s →
      h ∉ raf_pending (step Math_random innerText_of s (SetText newText)).
Proof.
  cbn zeta.
  pose proof (run_single_loop evs _ (new_single_loop markup)) as Hs.
  set (s := run _ _ _ _) in *.
  split; [by apply single_loop_size|].
  intros newText h Hh. cbn [step]. rewrite setText_unfold. cbn [fst].
  rewrite (cancel_single_loop _ Hs).
  destruct Hs as [_ H2]. specialize (H2 _ Hh).
  match goal with |- context [update _ ?s0] =>
    destruct (update_cases s0) as [_ [[_ ->] | [_ ->]]] end; cbn.
  - set_solver.
  - intros Hin. rewrite union_empty_r_L in Hin.
    apply elem_of_singleton in Hin. lia.
Qed.

(** *** Superseded promises *)

Lemma update_orphaned (p : nat) (s : state) :
  orphaned p s → orphaned p (update Math_random s).
Proof.
  intros (H1 & H2 & H3).
  destruct (update_cases s) as [_ [[_ ->] | [_ ->]]];
    unfold orphaned; cbn; [|done].
  split; [|done].
  destruct (resolve s) as [p'|]; [|done].
  rewrite not_elem_of_union, not_elem_of_singleton.
  split; [congruence | done].
Qed.

Lemma step_orphaned (p : nat) (s : state) (e : event) :
  orphaned p s → orphaned p (step Math_random innerText_of s e).
Proof.
  intros Ho. destruct e as [newText | h]; cbn [step].
  - rewrite setText_unfold. cbn [fst].
    apply update_orphaned. destruct Ho as (H1 & H2 & H3).
    unfold orphaned; cbn. split; [done|]. split; [|lia].
    intros E. injection E as E. lia.
  - case_decide; [|done]. by apply update_orphaned.
Qed.

Lemma run_orphaned (p : nat) (evs : list event) (s : state) :
  orphaned p s → orphaned p (run Math_random innerText_of evs s).
Proof.
  unfold run. revert s.
  induction evs as [|e evs IH]; intros s Hs; cbn; [done|].
  apply IH. by apply step_orphaned.
Qed.

Lemma update_promise_next (s : state) :
  promise_next (update Math_random s) = promise_next s.
Proof. by destruct (update_cases s) as [_ [[_ ->] | [_ ->]]]. Qed.

Lemma step_promise_next (s : state) (e : event) :
  promise_next s ≤ promise_next (step Math_random innerText_of s e).
Proof.
  destruct e as [newText | h]; cbn [step].
  - rewrite setText_unfold. cbn [fst]. rewrite update_promise_next. cbn. lia.
  - case_decide; [|done]. by rewrite update_promise_next.
Qed.

Lemma run_promise_next (evs : list event) (s : state) :
  promise_next s ≤ promise_next (run Math_random innerText_of evs s).
Proof.
  unfold run. revert s.
  induction evs as [|e evs IH]; intros s; cbn; [done|].
  etransitivity; [apply step_promise_next | apply IH].
Qed.

Lemma update_resolve (s : state) :
  resolve (update Math_random s) = resolve s.
Proof. by destruct (update_cases s) as [_ [[_ ->] | [_ ->]]]. Qed.

(** C8. A [setText] call returns a promise. If, after any further
    frame callbacks, that promise is still unresolved when [setText] is
    called again, then the second call stores its own resolver in the
    instance's only slot, and whatever happens afterwards the first
    promise is never resolved. *)
Theorem superseded_promise_never_resolved
    (s : state) (text1 text2 : jsstring) (evs1 evs2 : list event) :
  let first := setText Math_random innerText_of text1 s in
  let s1 := run Math_random innerText_of evs1 first.1 in
  let second := setText Math_random innerText_of text2 s1 in
  first.2 ∉ resolved s1 →
  resolve second.1 = Some second.2
  ∧ second.2 ≠ first.2
  ∧ first.2 ∉ resolved (run Math_random innerText_of evs2 second.1).
Proof.
  intros first s1 second Hun.
  assert (promise_next s < promise_next s1) as Hlt.
  { subst s1 first. eapply Nat.lt_le_trans; [|apply run_promise_next].
    rewrite setText_unfold. cbn [fst]. rewrite update_promise_next. cbn. lia. }
  assert (first.2 = promise_next s) as E1.
  { subst first. by rewrite setText_unfold. }
  assert (second.2 = promise_next s1) as E2.
  { subst second. by rewrite setText_unfold. }
  assert (resolve second.1 = Some (promise_next s1)) as E3.
  { subst second. rewrite setText_unfold. cbn [fst].
    by rewrite update_resolve. }
  rewrite E1 in *. rewrite E2.
  split; [done|]. split; [lia|].
  apply (run_orphaned (promise_next s) evs2 second.1).
  subst second. rewrite setText_unfold. cbn [fst].
  apply update_orphaned. unfold orphaned; cbn.
  split; [done|]. split; [|lia].
  intros E. injection E as E. lia.
Qed.

(** *** Slots that depend only on the skeleton *)

Lemma map_to_skeleton (qu : list slot) :
  map to qu = map (λ sk : jsstring * jsstring * Z * Z, sk.1.1.2) (map skeleton qu).
Proof. induction qu as [|sl qu IH]; cbn; [done | by rewrite IH]. Qed.

Lemma settled_skeleton (fr : Z) (qu : list slot) :
  Forall (settled fr) qu
  ↔ Forall (λ sk : jsstring * jsstring * Z * Z, (sk.2 ≤ fr)%Z) (map skeleton qu).
Proof. by rewrite Forall_fmap. Qed.

Lemma in_range_skeleton (qu : list slot) :
  Forall in_range qu
  ↔ Forall (λ sk : jsstring * jsstring * Z * Z,
              (0 ≤ sk.1.2 < 40)%Z
              ∧ ∃ d : Z, (0 ≤ d < 40)%Z ∧ sk.2 = (sk.1.2 + d)%Z)
           (map skeleton qu).
Proof. by rewrite Forall_fmap. Qed.

Lemma settled_mono (a b : Z) (qu : list slot) :
  (a ≤ b)%Z → Forall (settled a) qu → Forall (settled b) qu.
Proof.
  intros Hab HF. eapply Forall_impl; [exact HF|].
  unfold settled. intros sl H. lia.
Qed.

Lemma in_range_settled_78 (qu : list slot) :
  Forall in_range qu → Forall (settled 78) qu.
Proof.
  intros HF. eapply Forall_impl; [exact HF|].
  intros sl [H1 (d & H2 & H3)]. unfold settled. lia.
Qed.

(** *** Settling, for a [Math.random] with values in [0,1) *)

Hypothesis Math_random_range : ∀ k, (0 <= Math_random k < 1)%Q.

Lemma random_below_range (k : nat) (n : Z) :
  (0 < n)%Z → (0 ≤ random_below Math_random k n < n)%Z.
Proof.
  intros Hn. unfold random_below.
  destruct (Math_random_range k) as [H0 H1].
  assert (0 < inject_Z n)%Q as Hq.
  { change 0%Q with (inject_Z 0). by rewrite <- Zlt_Qlt. }
  split.
  - change 0%Z with (Qfloor 0). apply Qfloor_resp_le.
    apply Qmult_le_0_compat; [done | by apply Qlt_le_weak].
  - rewrite Zlt_Qlt.
    eapply Qle_lt_trans; [apply Qfloor_le|].
    rewrite <- (Qmult_1_l (inject_Z n)) at 2.
    by apply Qmult_lt_compat_r.
Qed.

Lemma or_empty_index (text : jsstring) (i : nat) :
  or_empty (js_index text (Z.of_nat i)) = take 1 (drop i text).
Proof.
  unfold or_empty, js_index.
  destruct (Z.ltb_spec (Z.of_nat i) 0) as [Hneg | _]; [lia|].
  rewrite Nat2Z.id.
  destruct (text !! i) as [c|] eqn:E; cbn.
  - by rewrite (drop_S _ _ _ E).
  - apply lookup_ge_None in E. by rewrite drop_ge.
Qed.

Lemma build_queue_spec (oldText newText : jsstring) (n i k : nat) :
  let b := build_queue Math_random oldText newText i n k in
  length b.1 = n
  ∧ Forall in_range b.1
  ∧ concat (map to b.1) = take n (drop i newText).
Proof.
  revert i k. induction n as [|n IH]; intros i k; cbn.
  - split; [done|]. split; [constructor|]. by rewrite take_0.
  - specialize (IH (S i) (S (S k))).
    destruct (build_queue Math_random oldText newText (S i) n (S (S k)))
      as [rest k'].
    cbn in *. destruct IH as (IH1 & IH2 & IH3).
    split; [by rewrite IH1|]. split.
    + constructor; [|done]. unfold in_range; cbn.
      split; [apply random_below_range; lia|].
      exists (random_below Math_random (S k) 40).
      split; [apply random_below_range; lia | done].
    + rewrite IH3, or_empty_index.
      destruct (newText !! i) as [c|] eqn:E.
      * by rewrite (drop_S _ _ _ E).
      * apply lookup_ge_None in E.
        rewrite !drop_ge by lia. by rewrite !take_nil.
Qed.

Lemma next_frame_idle (st : state) :
  (∀ h, frameRequest st = Some h → h ∉ raf_pending st) →
  next_frame Math_random innerText_of st = st.
Proof.
  intros H. unfold next_frame.
  destruct (frameRequest st) as [h|]; [|done].
  cbn [step]. case_decide as Hin; [|done].
  by destruct (H h eq_refl).
Qed.

Lemma frames_S (n : nat) (st : state) :
  frames Math_random innerText_of (S n) st
  = next_frame Math_random innerText_of (frames Math_random innerText_of n st).
Proof. reflexivity. Qed.

(** The animation [n] frame callbacks after the [update] call that ends
    [setText]: either some slot is not settled at frame [n] and the next
    callback is scheduled, or every slot is, the markup is the target
    text, the promise is resolved and nothing is scheduled by it. *)
Lemma frames_spec (pre : state) (p : nat) (n : nat) :
  frame pre = 0%Z → resolve pre = Some p →
  (∀ h, frameRequest pre = Some h → h ∉ raf_pending pre) →
  let st := frames Math_random innerText_of n (update Math_random pre) in
  map skeleton (queue st) = map skeleton (queue pre)
  ∧ resolve st = Some p
  ∧ ((¬ Forall (settled (Z.of_nat n)) (queue pre)
      ∧ frame st = (Z.of_nat n + 1)%Z
      ∧ ∃ h, frameRequest st = Some h ∧ h ∈ raf_pending st)
     ∨ (Forall (settled (Z.of_nat n)) (queue pre)
        ∧ el_innerHTML st = concat (map to (queue pre))
        ∧ p ∈ resolved st
        ∧ ∀ h, frameRequest st = Some h → h ∉ raf_pending st)).
Proof.
  intros Hf Hr Hc. induction n as [|n IH].
  - change (frames Math_random innerText_of 0 (update Math_random pre))
      with (update Math_random pre). cbn zeta.
    destruct (update_cases pre) as [Hsk [[HF ->] | [HF ->]]];
      cbn; rewrite Hf in HF.
    + split; [done|]. split; [done|]. right.
      rewrite Hr. repeat split; try done.
      apply elem_of_union_l. by apply elem_of_singleton.
    + split; [done|]. split; [done|]. left.
      rewrite Hf. repeat split; try done.
      exists (raf_next pre). split; [done|].
      apply elem_of_union_l. by apply elem_of_singleton.
  - cbn zeta in *. rewrite frames_S.
    set (st := frames Math_random innerText_of n _) in *.
    destruct IH as (Hsk & Hres & [(Hn & Hfr & h & Hh & Hin) | (Hd & Hhtml & Hp & Hidle)]).
    + unfold next_frame. rewrite Hh. cbn [step].
      rewrite decide_True by done.
      match goal with |- context [update _ ?s0] => set (st' := s0) end.
      destruct (update_cases st') as [Hsk' [[HF ->] | [HF ->]]];
        cbn; cbn in HF, Hsk'; rewrite Hfr in HF;
        rewrite settled_skeleton, Hsk, <- settled_skeleton in HF;
        replace (Z.of_nat n + 1)%Z with (Z.of_nat (S n)) in HF by lia.
      * split; [done|]. split; [done|]. right.
        split; [done|]. split.
        { by rewrite !map_to_skeleton, Hsk. }
        split.
        { rewrite Hres. apply elem_of_union_l. by apply elem_of_singleton. }
        intros h' E. rewrite Hh in E. injection E as <-.
        rewrite elem_of_difference, elem_of_singleton. tauto.
      * split; [by rewrite Hsk'|]. split; [done|]. left.
        split; [done|]. split; [lia|].
        exists (raf_next st). split; [done|].
        apply elem_of_union_l. by apply elem_of_singleton.
    + rewrite (next_frame_idle st Hidle).
      split; [done|]. split; [done|]. right.
      split; [|done]. eapply settled_mono; [|exact Hd]. lia.
Qed.

(** C1, amended. From any state of the instance and for any target text:
    [setText] leaves a queue of max(|oldText|, |newText|) slots, where
    oldText is the element's text when it is called; every slot has
    its start frame in [0,40) and its end frame equal to the start frame
    plus an integer of [0,40); after [n] frame callbacks, if the frame
    number [n] has reached every slot's end frame, the element's markup,
    the string assigned to [innerHTML], is newText, character for
    character; 78 callbacks always suffice; and the text the browser then
    reports is newText whenever it reports newText for the markup
    newText, that is when newText contains no markup. *)
Theorem setText_queue_and_final_text (s : state) (newText : jsstring) :
  let oldText := innerText_of (el_innerHTML s) in
  let s0 := (setText Math_random innerText_of newText s).1 in
  length (queue s0) = Nat.max (length oldText) (length newText)
  ∧ Forall in_range (queue s0)
  ∧ (∀ n : nat,
       Forall (settled (Z.of_nat n)) (queue s0) →
       el_innerHTML (frames Math_random innerText_of n s0) = newText)
  ∧ el_innerHTML (frames Math_random innerText_of 78 s0) = newText
  ∧ (innerText_of newText = newText →
     innerText_of (el_innerHTML (frames Math_random innerText_of 78 s0))
     = newText).
Proof.
  intros oldText s0. subst s0. rewrite setText_unfold. cbn [fst].
  fold oldText.
  set (len := Nat.max (length oldText) (length newText)).
  pose proof (build_queue_spec oldText newText len 0 (rng s))
    as (Hlen & Hrange & Hto).
  set (b := build_queue _ _ _ _ _ _) in *.
  rewrite drop_0, take_ge in Hto by (subst len; lia).
  set (pre := mkState _ _ _ _ _ _ _ _ _ _ _).
  assert (∀ h, frameRequest pre = Some h → h ∉ raf_pending pre) as Hc.
  { subst pre; cbn. intros h ->. cbn.
    rewrite elem_of_difference, elem_of_singleton. tauto. }
  pose proof (frames_spec pre (promise_next s) 0 eq_refl eq_refl Hc)
    as (Hsk0 & _).
  change (frames Math_random innerText_of 0 (update Math_random pre))
    with (update Math_random pre) in Hsk0.
  change (queue pre) with b.1 in Hsk0.
  assert (∀ n : nat,
             Forall (settled (Z.of_nat n)) b.1 →
             el_innerHTML (frames Math_random innerText_of n
                             (update Math_random pre)) = newText) as Hfin.
  { intros n HF.
    pose proof (frames_spec pre (promise_next s) n eq_refl eq_refl Hc)
      as (_ & _ & [(Hn & _) | (_ & Hhtml & _)]).
    - by destruct Hn.
    - rewrite Hhtml. exact Hto. }
  split; [by rewrite <- (length_map skeleton), Hsk0, length_map|].
  split; [by rewrite in_range_skeleton, Hsk0, <- in_range_skeleton|].
  split.
  { intros n HF. apply Hfin.
    by rewrite settled_skeleton, <- Hsk0, <- settled_skeleton. }
  assert (el_innerHTML (frames Math_random innerText_of 78
                          (update Math_random pre)) = newText) as H78.
  { apply (Hfin 78%nat). by apply in_range_settled_78. }
  split; [exact H78|]. intros Hplain. by rewrite H78.
Qed.

(** A [setText] that is not superseded does resolve its promise. *)
Lemma setText_resolves (s : state) (newText : jsstring) :
  let r := setText Math_random innerText_of newText s in
  r.2 ∈ resolved (frames Math_random innerText_of 78 r.1).
Proof.
  cbn zeta. rewrite setText_unfold. cbn [fst snd].
  set (oldText := innerText_of (el_innerHTML s)).
  set (len := Nat.max (length oldText) (length newText)).
  pose proof (build_queue_spec oldText newText len 0 (rng s))
    as (_ & Hrange & _).
  set (b := build_queue _ _ _ _ _ _) in *.
  set (pre := mkState _ _ _ _ _ _ _ _ _ _ _).
  assert (∀ h, frameRequest pre = Some h → h ∉ raf_pending pre) as Hc.
  { subst pre; cbn. intros h ->. cbn.
    rewrite elem_of_difference, elem_of_singleton. tauto. }
  pose proof (frames_spec pre (promise_next s) 78 eq_refl eq_refl Hc)
    as (_ & _ & [(Hn & _) | (_ & _ & Hp & _)]); [|done].
  destruct Hn. by apply in_range_settled_78.
Qed.

End Loop.

Lemma at_most_one_update_loop_witness :
  let s := run sample_random plain_text
             [SetText (of_ascii "abc"); AnimationFrame 0]
             (new (of_ascii "xy")) in
  size (raf_pending s) ≤ 1
  ∧ 1 ∉ raf_pending (step sample_random plain_text s (SetText (of_ascii "hi"))).
Proof.
  pose proof (at_most_one_update_loop sample_random plain_text
                (of_ascii "xy") [SetText (of_ascii "abc"); AnimationFrame 0])
    as [H1 H2].
  split; [exact H1|].
  apply H2. vm_compute. reflexivity.
Defined.

Lemma superseded_promise_never_resolved_witness :
  let first := setText sample_random plain_text (of_ascii "abc")
                 (new (of_ascii "xy")) in
  let s1 := run sample_random plain_text
              [AnimationFrame 0; AnimationFrame 1] first.1 in
  let second := setText sample_random plain_text (of_ascii "hi") s1 in
  resolve second.1 = Some second.2
  ∧ second.2 ≠ first.2
  ∧ first.2 ∉ resolved (run sample_random plain_text
                          (map AnimationFrame (seq 0 100)) second.1).
Proof.
  apply (superseded_promise_never_resolved sample_random plain_text).
  vm_compute. discriminate.
Defined.

Lemma setText_queue_and_final_text_witness :
  let s0 := (setText sample_random plain_text (of_ascii "abc")
               (new (of_ascii "xy"))).1 in
  length (queue s0) = 3
  ∧ Forall in_range (queue s0)
  ∧ (∀ n : nat,
       Forall (settled (Z.of_nat n)) (queue s0) →
       el_innerHTML (frames sample_random plain_text n s0) = of_ascii "abc")
  ∧ el_innerHTML (frames sample_random plain_text 78 s0) = of_ascii "abc"
  ∧ plain_text (el_innerHTML (frames sample_random plain_text 78 s0))
    = of_ascii "abc".
Proof.
  assert (∀ k, (0 <= sample_random k < 1)%Q) as Hrange.
  { intros k. unfold sample_random, Qle, Qlt. cbn.
    pose proof (Nat.mod_upper_bound (k * 37 + 11) 100). lia. }
  pose proof (setText_queue_and_final_text sample_random plain_text Hrange
                (new (of_ascii "xy")) (of_ascii "abc"))
    as (H1 & H2 & H3 & H4 & H5).
  split; [exact H1|]. split; [exact H2|]. split; [exact H3|].
  split; [exact H4|]. apply H5. reflexivity.
Defined.

(** The run of the specification's example: the slots built, and the
    markup after 5 and after 61 callbacks. *)
Example abc_over_xy :
  let s0 := (setText sample_random plain_text (of_ascii "abc")
               (new (of_ascii "xy"))).1 in
  map skeleton (queue s0)
  = [ (of_ascii "x", of_ascii "a", 4, 23)%Z;
      (of_ascii "y", of_ascii "b", 34, 42)%Z;
      ([], of_ascii "c", 23, 61)%Z ]
  ∧ el_innerHTML (frames sample_random plain_text 5 s0)
    = dud (Some (of_ascii "{")) ++ of_ascii "y"
  ∧ el_innerHTML (frames sample_random plain_text 61 s0) = of_ascii "abc"
  ∧ elements (resolved (frames sample_random plain_text 60 s0)) = []
  ∧ elements (resolved (frames sample_random plain_text 61 s0)) = [0].
Proof. vm_compute. repeat split. Qed.

End ScrambleFacts.

(** * Further properties of the script *)

(** ** Theme controller and renderer *)

Module PageFacts.
Import Page.

(** The click handler, field by field. *)
Lemma toggle_click_fields (s : page) :
  let n := newTheme_of (theme_state s) in
  toggle_click s
  = mkPage (<["data-theme" := n]> (html_attrs s))
           (<["theme" := n]> (localStorage s))
           (if decide (n = "light") then "none" else "block")
           (if decide (n = "light") then "block" else "none")
           (updateCanvasTheme_set s)
           (if updateCanvasTheme_set s then n else canvasTheme s)
           (projectsContainer s) (orgContainer s).
Proof.
  cbn zeta. unfold toggle_click, updateThemeIcon, theme_state.
  case_decide; cbn; by destruct (updateCanvasTheme_set s).
Qed.

Lemma newTheme_of_twice (v : option string) :
  newTheme_of (Some (newTheme_of (Some (newTheme_of v)))) = newTheme_of v.
Proof. unfold newTheme_of. repeat case_decide; congruence. Qed.

Lemma newTheme_of_cases (v : option string) :
  newTheme_of v = "light" ∨ newTheme_of v = "dark".
Proof. unfold newTheme_of. case_decide; auto. Qed.

(** From the first click on, the page alternates between two states: a
    third click brings back, field for field, the page the first click
    produced. *)
Theorem toggle_click_period_two (s : page) :
  toggle_click (toggle_click (toggle_click s)) = toggle_click s.
Proof.
  pose proof (toggle_click_fields s) as E1.
  pose proof (ThemeFacts.theme_state_toggle s) as T1.
  set (s1 := toggle_click s) in *. clearbody s1.
  pose proof (toggle_click_fields s1) as E2.
  pose proof (ThemeFacts.theme_state_toggle s1) as T2.
  set (s2 := toggle_click s1) in *. clearbody s2.
  rewrite (toggle_click_fields s2). cbn zeta in *.
  rewrite T2, T1, newTheme_of_twice.
  rewrite T1 in E2. subst s2. cbn. subst s1. cbn.
  rewrite !insert_insert_eq.
  destruct (updateCanvasTheme_set s); reflexivity.
Qed.

(** After a click the theme state, the persisted value, the icons and,
    when the canvas callback is registered, the canvas theme all agree;
    without the callback the canvas theme is left alone. The containers
    are not touched. *)
Theorem toggle_click_in_sync (s : page) :
  let s' := toggle_click s in
  persisted_theme s' = theme_state s'
  ∧ ((theme_state s' = Some "light"
      ∧ sunIcon_display s' = "none" ∧ moonIcon_display s' = "block")
     ∨ (theme_state s' = Some "dark"
        ∧ sunIcon_display s' = "block" ∧ moonIcon_display s' = "none"))
  ∧ (if updateCanvasTheme_set s then Some (canvasTheme s') = theme_state s'
     else canvasTheme s' = canvasTheme s)
  ∧ projectsContainer s' = projectsContainer s
  ∧ orgContainer s' = orgContainer s.
Proof.
  cbn zeta.
  rewrite ThemeFacts.persisted_toggle, ThemeFacts.theme_state_toggle.
  rewrite toggle_click_fields. cbn.
  split; [done|]. split.
  - destruct (newTheme_of_cases (theme_state s)) as [-> | ->]; auto.
  - by destruct (updateCanvasTheme_set s).
Qed.

(** Loading never writes the storage. The theme state it sets is the
    stored value when there is a non-empty one, whatever it says, and dark
    when the key is missing or holds the empty string; the moon icon is
    shown for light and the sun icon for everything else. *)
Theorem load_theme_default (s : page) :
  let s' := load_theme s in
  localStorage s' = localStorage s
  ∧ theme_state s'
    = Some (match localStorage s !! "theme" with
            | Some (String c r) => String c r
            | _ => "dark"
            end)
  ∧ (if decide (theme_state s' = Some "light")
     then sunIcon_display s' = "none" ∧ moonIcon_display s' = "block"
     else sunIcon_display s' = "block" ∧ moonIcon_display s' = "none").
Proof.
  cbn zeta. unfold load_theme, or_default, theme_state, updateThemeIcon.
  set (t := match localStorage s !! "theme" with
            | Some (String c r) => String c r
            | _ => "dark"
            end).
  case_decide as Ht; cbn; rewrite lookup_insert_eq.
  - split; [done|]. split; [done|]. rewrite decide_True; [done | by rewrite Ht].
  - split; [done|]. split; [done|]. rewrite decide_False; [done | congruence].
Qed.

(** Rendering a table twice is the same as rendering it once; the two
    render blocks can run in either order; and a click on the theme toggle
    before or after rendering gives the same page. *)
Theorem render_idempotent_commutes
    (ptable : list Project.t) (otable : list Org.t) (s : page) :
  render_projects ptable (render_projects ptable s) = render_projects ptable s
  ∧ render_organizations otable (render_organizations otable s)
    = render_organizations otable s
  ∧ render_organizations otable (render_projects ptable s)
    = render_projects ptable (render_organizations otable s)
  ∧ toggle_click (render_projects ptable s)
    = render_projects ptable (toggle_click s)
  ∧ toggle_click (render_organizations otable s)
    = render_organizations otable (toggle_click s).
Proof.
  repeat split.
  - unfold render_projects. destruct (projectsContainer s) eqn:E; cbn; [done|].
    by rewrite E.
  - unfold render_organizations. destruct (orgContainer s) eqn:E; cbn; [done|].
    by rewrite E.
  - unfold render_organizations, render_projects.
    destruct (projectsContainer s) eqn:Ep, (orgContainer s) eqn:Eo;
      cbn; rewrite ?Ep, ?Eo; done.
  - rewrite (toggle_click_fields s), toggle_click_fields.
    unfold render_projects, theme_state.
    destruct (projectsContainer s) eqn:E; cbn; rewrite ?E; reflexivity.
  - rewrite (toggle_click_fields s), toggle_click_fields.
    unfold render_organizations, theme_state.
    destruct (orgContainer s) eqn:E; cbn; rewrite ?E; reflexivity.
Qed.

End PageFacts.

(** ** Cursor follower and magnetic buttons *)

Module CursorFacts.
Import Cursor.
Local Open Scope R_scope.

Lemma animate_before_init A pow (ratios : list R) (s : state) :
  isCursorInit s = false → animate A pow ratios s = s.
Proof.
  intros Hs. unfold animate.
  induction ratios as [|r ratios IH]; cbn; [done|].
  unfold animateCursor at 2. by rewrite Hs.
Qed.

(** Until the pointer has moved, frames leave the follower where it
    starts, hidden and never positioned. The first pointer move makes it
    visible, and the next frame positions it exactly at the pointer,
    whatever the delta ratio: the follower does not slide in from its
    off-screen start. *)
Theorem first_move_snaps (A : Particle.arith) (pow : R → R → R)
    (before : list R) (a b r : R) :
  cancels A →
  let idle := animate A pow before initial in
  let moved := mousemove a b idle in
  let s := animateCursor A pow r moved in
  idle = initial
  ∧ opacity moved = Some "1"
  ∧ placed s = Some (a, b)
  ∧ cursorX s = a ∧ cursorY s = b.
Proof.
  intros (Hsub & Hmul & Hadd). cbn zeta.
  rewrite animate_before_init by done.
  unfold animateCursor, mousemove; cbn.
  rewrite !Hsub, !Hmul, !Hadd. done.
Qed.

Lemma exact_cancels : cancels Particle.exact.
Proof. repeat split; intros; cbn; lra. Qed.

Lemma first_move_snaps_witness :
  let moved := mousemove 320 200 (animate Particle.exact Rpower [1; 2] initial) in
  let s := animateCursor Particle.exact Rpower 1 moved in
  animate Particle.exact Rpower [1; 2] initial = initial
  ∧ opacity moved = Some "1"
  ∧ placed s = Some (320, 200)
  ∧ cursorX s = 320 ∧ cursorY s = 200.
Proof.
  apply (first_move_snaps Particle.exact Rpower [1; 2] 320 200 1).
  repeat split; intros; cbn; lra.
Defined.

(** In arithmetic without rounding, two frames with delta ratios [r1]
    and [r2] leave the follower exactly where one frame with delta ratio
    [r1 + r2] does, as long as the pointer does not move in between: how
    far the follower gets does not depend on how time is cut into
    frames. *)
Theorem animateCursor_frame_rate_independent (r1 r2 : R) (s : state) :
  animateCursor Particle.exact Rpower r2 (animateCursor Particle.exact Rpower r1 s)
  = animateCursor Particle.exact Rpower (r1 + r2) s.
Proof.
  unfold animateCursor. destruct (isCursorInit s) eqn:E; cbn; [|by rewrite E].
  rewrite Rpower_plus.
  set (P1 := Rpower (1 - 2 / 10) r1). set (P2 := Rpower (1 - 2 / 10) r2).
  assert (∀ m c,
             c + (m - c) * (1 - P1) + (m - (c + (m - c) * (1 - P1))) * (1 - P2)
             = c + (m - c) * (1 - P1 * P2)) as Hc by (intros; ring).
  by rewrite !Hc.
Qed.

Lemma Rpower_decay (r : R) : 0 <= r → 0 < Rpower (1 - 2 / 10) r <= 1.
Proof.
  intros Hr. unfold Rpower. split; [apply exp_pos|].
  assert (ln (1 - 2 / 10) < 0) as Hln.
  { rewrite <- ln_1. apply ln_increasing; lra. }
  destruct Hr as [Hlt | <-].
  - pose proof (exp_increasing (r * ln (1 - 2 / 10)) 0) as He.
    rewrite exp_0 in He. apply Rlt_le, He. nra.
  - rewrite Rmult_0_l, exp_0. lra.
Qed.

(** In arithmetic without rounding, a frame with a non-negative delta
    ratio multiplies the follower's offset from the pointer by
    0.8^deltaRatio, a factor in (0,1]: the follower moves towards the
    pointer, never past it and never away from it. *)
Theorem animateCursor_no_overshoot (r : R) (s : state) :
  isCursorInit s = true → 0 <= r →
  let s' := animateCursor Particle.exact Rpower r s in
  let k := Rpower (1 - 2 / 10) r in
  0 < k <= 1
  ∧ mouseX s' - cursorX s' = k * (mouseX s - cursorX s)
  ∧ mouseY s' - cursorY s' = k * (mouseY s - cursorY s)
  ∧ Rabs (mouseX s' - cursorX s') <= Rabs (mouseX s - cursorX s)
  ∧ Rabs (mouseY s' - cursorY s') <= Rabs (mouseY s - cursorY s).
Proof.
  intros Hi Hr. cbn zeta.
  pose proof (Rpower_decay r Hr) as Hk.
  unfold animateCursor. rewrite Hi. cbn.
  set (k := Rpower (1 - 2 / 10) r) in *.
  assert (∀ m c, m - (c + (m - c) * (1 - k)) = k * (m - c)) as Hc
    by (intros; ring).
  rewrite !Hc. split; [done|]. split; [done|]. split; [done|].
  assert (∀ d, Rabs (k * d) <= Rabs d) as Hb.
  { intros d. rewrite Rabs_mult, (Rabs_pos_eq k) by lra.
    pose proof (Rabs_pos d). nra. }
  split; apply Hb.
Qed.

Lemma animateCursor_no_overshoot_witness :
  let s := mousemove 400 300 (mousemove 320 200 initial) in
  let s' := animateCursor Particle.exact Rpower 1 s in
  let k := Rpower (1 - 2 / 10) 1 in
  0 < k <= 1
  ∧ mouseX s' - cursorX s' = k * (400 - 320)
  ∧ mouseY s' - cursorY s' = k * (300 - 200)
  ∧ Rabs (mouseX s' - cursorX s') <= Rabs (400 - 320)
  ∧ Rabs (mouseY s' - cursorY s') <= Rabs (300 - 200).
Proof.
  apply (animateCursor_no_overshoot 1 (mousemove 400 300 (mousemove 320 200 initial)));
    [reflexivity | lra].
Defined.

(** In arithmetic without rounding, while the pointer is over a button
    of non-negative size the offset asked for is at most 15% of the
    button's width and height, and it is zero at the centre. *)
Theorem magnetic_pull_bounded (clientX clientY : R) (r : Magnetic.rect) :
  Magnetic.left r <= clientX <= Magnetic.left r + Magnetic.width r →
  Magnetic.top r <= clientY <= Magnetic.top r + Magnetic.height r →
  let target := Magnetic.mousemove Particle.exact clientX clientY r in
  Rabs target.1 <= 15 / 100 * Magnetic.width r
  ∧ Rabs target.2 <= 15 / 100 * Magnetic.height r
  ∧ Magnetic.mousemove Particle.exact
      (Magnetic.left r + Magnetic.width r / 2)
      (Magnetic.top r + Magnetic.height r / 2) r
    = Magnetic.mouseleave.
Proof.
  intros Hx Hy. unfold Magnetic.mousemove, Magnetic.mouseleave; cbn.
  split; [apply Rabs_le; lra|]. split; [apply Rabs_le; lra|].
  f_equal; lra.
Qed.

Lemma magnetic_pull_bounded_witness :
  let r := Magnetic.mkRect 100 50 120 40 in
  let target := Magnetic.mousemove Particle.exact 130 80 r in
  Rabs target.1 <= 15 / 100 * 120
  ∧ Rabs target.2 <= 15 / 100 * 40
  ∧ Magnetic.mousemove Particle.exact (100 + 120 / 2) (50 + 40 / 2) r
    = Magnetic.mouseleave.
Proof.
  apply (magnetic_pull_bounded 130 80 (Magnetic.mkRect 100 50 120 40));
    cbn; lra.
Defined.

End CursorFacts.

(** ** Particle canvas: frames, lines and bounds *)

Module CanvasFacts.
Import Particle.
Local Open Scope R_scope.

Lemma network_from_moved A w h light i0 ps :
  (network_from A w h light i0 ps).1 = map (update A w h) ps.
Proof.
  revert i0. induction ps as [|p rest IH]; intros i0; cbn; [done|].
  specialize (IH (S i0)).
  destruct (network_from A w h light (S i0) rest) as [rest1 ops].
  cbn in *. by rewrite IH.
Qed.

Lemma discs_app (l1 l2 : list op) : discs (l1 ++ l2) = discs l1 ++ discs l2.
Proof.
  induction l1 as [|o l1 IH]; cbn; [done|].
  destruct o; cbn; by rewrite IH.
Qed.

Lemma stroke_pairs_app (l1 l2 : list op) :
  stroke_pairs (l1 ++ l2) = stroke_pairs l1 ++ stroke_pairs l2.
Proof.
  induction l1 as [|o l1 IH]; cbn; [done|].
  destruct o; cbn; by rewrite IH.
Qed.

Lemma connect_cases A light i j p p2 :
  connect A light i j p p2 = []
  ∨ ∃ o, connect A light i j p p2
         = [Stroke i j light o (x p) (y p) (x p2) (y p2)].
Proof.
  unfold connect. destruct (ltb (dist A p p2) 120); [right|left]; eauto.
Qed.

Lemma discs_connect_rest A light i j p rest :
  discs (connect_rest A light i j p rest) = [].
Proof.
  revert j. induction rest as [|p2 rest IH]; intros j; cbn; [done|].
  rewrite discs_app, IH.
  destruct (connect_cases A light i j p p2) as [-> | [o ->]]; done.
Qed.

Lemma pairs_connect_rest A light i j p rest :
  stroke_pairs (connect_rest A light i j p rest)
    `sublist_of` row i j (length rest).
Proof.
  revert j. induction rest as [|p2 rest IH]; intros j; cbn; [constructor|].
  rewrite stroke_pairs_app.
  destruct (connect_cases A light i j p p2) as [-> | [o ->]]; cbn.
  - apply sublist_cons, IH.
  - apply sublist_skip, IH.
Qed.

Lemma network_from_discs A w h light i0 ps :
  discs (network_from A w h light i0 ps).2
  = map (λ p, (light, x p, y p, size p)) (map (update A w h) ps).
Proof.
  revert i0. induction ps as [|p rest IH]; intros i0;
    rewrite ParticleFacts.network_from_ops; [done|].
  rewrite discs_app. cbn [discs]. rewrite discs_connect_rest, IH. done.
Qed.

Lemma network_from_pairs A w h light i0 ps :
  stroke_pairs (network_from A w h light i0 ps).2
    `sublist_of` pairs_from i0 (length ps).
Proof.
  revert i0. induction ps as [|p rest IH]; intros i0;
    rewrite ParticleFacts.network_from_ops; [constructor|].
  rewrite stroke_pairs_app. cbn [stroke_pairs length pairs_from].
  apply sublist_app; [apply pairs_connect_rest | apply IH].
Qed.

Lemma length_row i j n : length (row i j n) = n.
Proof. revert j. induction n as [|n IH]; intros j; cbn; [done | by rewrite IH]. Qed.

Lemma length_pairs_from i n :
  (2 * length (pairs_from i n) = n * (n - 1))%nat.
Proof.
  revert i. induction n as [|n IH]; intros i; cbn [pairs_from]; [done|].
  rewrite length_app, length_row. specialize (IH (S i)). nia.
Qed.

(** One frame clears the canvas first, moves every particle exactly once
    and draws each of them as one disc at its new position, in array
    order, whatever lines it draws in between. *)
Theorem animateNetwork_moves_and_draws_each
    (A : arith) (w h : R) (canvasTheme : string) (ps : list t) :
  let r := animateNetwork A w h canvasTheme ps in
  let light := bool_decide (canvasTheme = "light") in
  r.1 = map (update A w h) ps
  ∧ head r.2 = Some (ClearRect w h)
  ∧ discs r.2 = map (λ p, (light, x p, y p, size p)) r.1.
Proof.
  cbn zeta. unfold animateNetwork.
  pose proof (network_from_moved A w h (bool_decide (canvasTheme = "light")) 0 ps)
    as H1.
  pose proof (network_from_discs A w h (bool_decide (canvasTheme = "light")) 0 ps)
    as H2.
  destruct (network_from A w h _ 0 ps) as [ps1 ops]. cbn in *.
  subst ps1. done.
Qed.

(** The lines of a frame are issued pair by pair, in the order of the
    pairs [(i, j)] with [i < j], and at most one per pair; a frame of [n]
    particles therefore strokes at most [n (n - 1) / 2] lines. *)
Theorem animateNetwork_pairs_once
    (A : arith) (w h : R) (canvasTheme : string) (ps : list t) :
  let ops := (animateNetwork A w h canvasTheme ps).2 in
  stroke_pairs ops `sublist_of` pairs_from 0 (length ps)
  ∧ (2 * length (stroke_pairs ops) ≤ length ps * (length ps - 1))%nat.
Proof.
  cbn zeta. unfold animateNetwork.
  pose proof (network_from_pairs A w h (bool_decide (canvasTheme = "light")) 0 ps)
    as H1.
  destruct (network_from A w h _ 0 ps) as [ps1 ops]. cbn in *.
  split; [done|].
  apply sublist_length in H1.
  pose proof (length_pairs_from 0 (length ps)). lia.
Qed.

(** A line of a frame joins the position particle [i] has after its move
    of this frame to the position particle [j] still has from the frame
    before ([j] moves later in the frame and its disc is drawn there);
    the two are less than 120 apart as the frame computes it, and the
    line has the colour of the current theme. *)
Theorem stroke_endpoints
    (A : arith) (w h : R) (canvasTheme : string) (ps : list t)
    (i j : nat) (l : bool) (o x1 y1 x2 y2 : R) :
  Stroke i j l o x1 y1 x2 y2 ∈ (animateNetwork A w h canvasTheme ps).2 →
  (i < j < length ps)%nat
  ∧ ∃ pi pj,
      ps !! i = Some pi ∧ ps !! j = Some pj
      ∧ x1 = x (update A w h pi) ∧ y1 = y (update A w h pi)
      ∧ x2 = x pj ∧ y2 = y pj
      ∧ dist A (update A w h pi) pj < 120
      ∧ l = bool_decide (canvasTheme = "light").
Proof.
  unfold animateNetwork. set (light := bool_decide _).
  pose proof (ParticleFacts.stroke_in_network A w h light 0 ps i j l o x1 y1 x2 y2)
    as Hs.
  destruct (network_from A w h light 0 ps) as [ps1 ops]. cbn in *.
  intros H. apply elem_of_cons in H as [H | H]; [discriminate H|].
  apply Hs in H as (k & m & pi & pj & -> & -> & Hk & Hm & H).
  apply ParticleFacts.elem_of_connect in H as [Hd H].
  injection H as -> _ -> -> -> ->.
  apply lookup_lt_Some in Hm as Hlt.
  split; [cbn; lia|].
  exists pi, pj. cbn. repeat split; try done.
Qed.

Lemma stroke_endpoints_witness :
  ∃ (l : bool) (o x1 y1 x2 y2 : R),
    (0 < 1 < 3)%nat
    ∧ ∃ pi pj,
        sample !! 0%nat = Some pi ∧ sample !! 1%nat = Some pj
        ∧ x1 = x (update exact 800 600 pi) ∧ y1 = y (update exact 800 600 pi)
        ∧ x2 = x pj ∧ y2 = y pj
        ∧ dist exact (update exact 800 600 pi) pj < 120
        ∧ l = bool_decide ("dark" = "light").
Proof.
  destruct ParticleFacts.sample_lines as [(l & o & x1 & y1 & x2 & y2 & H) _].
  exists l, o, x1, y1, x2, y2.
  exact (stroke_endpoints exact 800 600 "dark" sample 0 1 l o x1 y1 x2 y2 H).
Defined.

Lemma dist_exact_nonneg (p p2 : t) : 0 <= dist exact p p2.
Proof. unfold dist; cbn. apply sqrt_pos. Qed.

(** In arithmetic without rounding, every line drawn has an opacity that
    is positive and at most 0.03 in the light theme and 0.05 in the dark
    one: the linear decay reaches zero exactly at the distance 120 from
    which no line is drawn. *)
Theorem stroke_opacity_positive
    (w h : R) (canvasTheme : string) (ps : list t)
    (i j : nat) (l : bool) (o x1 y1 x2 y2 : R) :
  Stroke i j l o x1 y1 x2 y2 ∈ (animateNetwork exact w h canvasTheme ps).2 →
  0 < o <= (if l then 3 / 100 else 5 / 100).
Proof.
  unfold animateNetwork. set (light := bool_decide _).
  pose proof (ParticleFacts.stroke_in_network exact w h light 0 ps i j l o x1 y1 x2 y2)
    as Hs.
  destruct (network_from exact w h light 0 ps) as [ps1 ops]. cbn in *.
  intros H. apply elem_of_cons in H as [H | H]; [discriminate H|].
  apply Hs in H as (k & m & pi & pj & -> & -> & Hk & Hm & H).
  apply ParticleFacts.elem_of_connect in H as [Hd H].
  pose proof (dist_exact_nonneg (update exact w h pi) pj) as H0.
  injection H as -> -> _ _ _ _.
  unfold dist in Hd, H0. cbn in Hd, H0.
  destruct light; cbn; lra.
Qed.

Lemma stroke_opacity_positive_witness :
  ∃ (l : bool) (o : R), 0 < o <= (if l then 3 / 100 else 5 / 100).
Proof.
  destruct ParticleFacts.sample_lines as [(l & o & x1 & y1 & x2 & y2 & H) _].
  exists l, o.
  exact (stroke_opacity_positive 800 600 "dark" sample 0 1 l o x1 y1 x2 y2 H).
Defined.

(** *** New particles and their speed *)

Lemma updates_speed A dims p :
  mul_flips A →
  Rabs (vx (updates A dims p)) = Rabs (vx p)
  ∧ Rabs (vy (updates A dims p)) = Rabs (vy p).
Proof.
  intros Hm. unfold updates. revert p.
  induction dims as [|[w h] dims IH]; intros p; cbn; [done|].
  destruct (IH (update A w h p)) as [-> ->].
  by apply ParticleFacts.update_speed.
Qed.

(** In arithmetic without rounding, on a canvas of positive extent and
    with random numbers in [0,1), a new particle lies on the canvas, each
    velocity component is at most 0.15 in absolute value and the radius
    is in [0.5, 2); the velocity bound then holds after any number of
    steps, whatever the canvas extent becomes. *)
Theorem constructor_ranges (w h r1 r2 r3 r4 r5 : R) :
  0 < w → 0 < h →
  0 <= r1 < 1 → 0 <= r2 < 1 → 0 <= r3 < 1 → 0 <= r4 < 1 → 0 <= r5 < 1 →
  let p := constructor exact w h r1 r2 r3 r4 r5 in
  0 <= x p < w ∧ 0 <= y p < h
  ∧ Rabs (vx p) <= 15 / 100 ∧ Rabs (vy p) <= 15 / 100
  ∧ 5 / 10 <= size p < 2
  ∧ ∀ dims,
      Rabs (vx (updates exact dims p)) <= 15 / 100
      ∧ Rabs (vy (updates exact dims p)) <= 15 / 100.
Proof.
  intros Hw Hh H1 H2 H3 H4 H5. cbn zeta.
  assert (Rabs ((r3 - 5 / 10) * (3 / 10)) <= 15 / 100) as Hvx
    by (apply Rabs_le; lra).
  assert (Rabs ((r4 - 5 / 10) * (3 / 10)) <= 15 / 100) as Hvy
    by (apply Rabs_le; lra).
  unfold constructor; cbn [x y vx vy size mul sub add exact].
  split; [nra|]. split; [nra|]. split; [done|]. split; [done|].
  split; [lra|]. intros dims.
  match goal with |- context [updates exact dims ?q] =>
    destruct (updates_speed exact dims q ParticleFacts.exact_mul_flips)
      as [-> ->] end.
  done.
Qed.

Lemma constructor_ranges_witness :
  let p := constructor exact 800 600 (1 / 2) (1 / 4) 0 (9 / 10) (1 / 3) in
  0 <= x p < 800 ∧ 0 <= y p < 600
  ∧ Rabs (vx p) <= 15 / 100 ∧ Rabs (vy p) <= 15 / 100
  ∧ 5 / 10 <= size p < 2
  ∧ ∀ dims,
      Rabs (vx (updates exact dims p)) <= 15 / 100
      ∧ Rabs (vy (updates exact dims p)) <= 15 / 100.
Proof.
  apply (constructor_ranges 800 600 (1 / 2) (1 / 4) 0 (9 / 10) (1 / 3)); lra.
Defined.

(** *** Bouncing *)

Lemma near_step (lim pos vel : R) :
  0 <= lim → near lim pos vel →
  near lim (pos + vel)
       (if ltb (pos + vel) 0 || ltb lim (pos + vel) then vel * -1 else vel).
Proof.
  intros Hl (Hb & Hneg & Hpos). unfold near in *.
  assert (Rabs (vel * -1) = Rabs vel) as Ha.
  { replace (vel * -1) with (- vel) by lra. apply Rabs_Ropp. }
  destruct (ltb (pos + vel) 0) eqn:E0; cbn [orb].
  - apply ParticleFacts.ltb_true in E0. rewrite Ha.
    unfold Rabs in *. destruct (Rcase_abs vel) as [Hv | Hv].
    + repeat split; intros; lra.
    + assert (pos < 0) as Hp by lra. specialize (Hneg Hp).
      repeat split; intros; lra.
  - apply ParticleFacts.ltb_false in E0.
    destruct (ltb lim (pos + vel)) eqn:E1.
    + apply ParticleFacts.ltb_true in E1. rewrite Ha.
      unfold Rabs in *. destruct (Rcase_abs vel) as [Hv | Hv].
      * assert (lim < pos) as Hp by lra. specialize (Hpos Hp).
        repeat split; intros; lra.
      * destruct (Rlt_dec pos 0) as [Hp | Hp].
        -- specialize (Hneg Hp). repeat split; intros; lra.
        -- repeat split; intros; lra.
    + apply ParticleFacts.ltb_false in E1.
      pose proof (Rabs_pos vel).
      repeat split; intros; lra.
Qed.

(** In arithmetic without rounding and on a canvas whose extent does not
    change, a particle that starts on the canvas is never more than one
    step outside it: on each axis its coordinate stays within one
    velocity's length of the canvas, and whenever it is outside, its
    velocity points back towards the canvas. *)
Theorem bounce_stays_near (w h : R) (p : t) (n : nat) :
  0 <= w → 0 <= h → 0 <= x p <= w → 0 <= y p <= h →
  let q := updates exact (replicate n (w, h)) p in
  near w (x q) (vx q) ∧ near h (y q) (vy q).
Proof.
  intros Hw Hh Hx Hy. cbn zeta.
  assert (near w (x p) (vx p) ∧ near h (y p) (vy p)) as Hn.
  { pose proof (Rabs_pos (vx p)). pose proof (Rabs_pos (vy p)).
    unfold near. repeat split; intros; lra. }
  clear Hx Hy. revert p Hn.
  induction n as [|n IH]; intros p Hn; [done|].
  cbn [replicate]. unfold updates in *. cbn [fold_left fst snd].
  apply IH. destruct Hn as [Hnx Hny].
  unfold update; cbn [x y vx vy add mul exact].
  split; by apply near_step.
Qed.

Lemma bounce_stays_near_witness :
  let p := mk (7999 / 10) 1 (15 / 100) (- (15 / 100)) 1 in
  let q := updates exact (replicate 3 (800, 600)) p in
  near 800 (x q) (vx q) ∧ near 600 (y q) (vy q).
Proof.
  apply (bounce_stays_near 800 600 (mk (7999 / 10) 1 (15 / 100) (- (15 / 100)) 1) 3);
    cbn; lra.
Defined.

(** *** Positions of one moment *)



End CanvasFacts.

(** ** Text scramble: completion, quiescence and what is shown *)

Module ScrambleMoreFacts.
Import TextScramble.

Section More.
Variable Math_random : nat → Q.
Variable innerText_of : jsstring → jsstring.

(** The state in which [setText] calls [update]. *)
Lemma setText_pre (newText : jsstring) (s : state) :
  ∃ pre,
    setText Math_random innerText_of newText s
    = (update Math_random pre, promise_next s)
    ∧ frame pre = 0%Z ∧ resolve pre = Some (promise_next s)
    ∧ chars pre = chars s ∧ resolved pre = resolved s
    ∧ frameRequest pre = frameRequest s
    ∧ raf_pending pre = cancelAnimationFrame (frameRequest s) (raf_pending s)
    ∧ raf_next pre = raf_next s
    ∧ promise_next pre = S (promise_next s)
    ∧ el_innerHTML pre = el_innerHTML s
    ∧ (queue pre, rng pre)
      = build_queue Math_random (innerText_of (el_innerHTML s)) newText 0
          (Nat.max (length (innerText_of (el_innerHTML s))) (length newText))
          (rng s).
Proof.
  eexists. rewrite ScrambleFacts.setText_unfold. split; [reflexivity|].
  cbn. repeat split; try reflexivity.
  by destruct (build_queue _ _ _ _ _ _).
Qed.

Lemma pre_not_scheduled (s pre : state) :
  frameRequest pre = frameRequest s →
  raf_pending pre = cancelAnimationFrame (frameRequest s) (raf_pending s) →
  ∀ h, frameRequest pre = Some h → h ∉ raf_pending pre.
Proof.
  intros E1 E2 h Hh. rewrite E2, <- E1, Hh. cbn.
  rewrite elem_of_difference, elem_of_singleton. tauto.
Qed.

(** What is scheduled and what is resolved, [n] callbacks after the
    [update] call that ends [setText], when nothing else was scheduled. *)
Lemma frames_trace (pre : state) (p : nat) (n : nat) :
  frame pre = 0%Z → resolve pre = Some p → raf_pending pre = ∅ →
  let st := frames Math_random innerText_of n (update Math_random pre) in
  (¬ Forall (settled (Z.of_nat n)) (queue pre)
   ∧ (∃ h, frameRequest st = Some h ∧ raf_pending st = {[h]})
   ∧ resolved st = resolved pre)
  ∨ (Forall (settled (Z.of_nat n)) (queue pre)
     ∧ raf_pending st = ∅
     ∧ resolved st = {[p]} ∪ resolved pre).
Proof.
  intros Hf Hr He.
  assert (∀ h, frameRequest pre = Some h → h ∉ raf_pending pre) as Hc.
  { intros h _. rewrite He. apply not_elem_of_empty. }
  induction n as [|n IH].
  - change (frames Math_random innerText_of 0 (update Math_random pre))
      with (update Math_random pre). cbn zeta.
    destruct (ScrambleFacts.update_cases Math_random innerText_of pre)
      as [_ [[HF ->] | [HF ->]]]; cbn; rewrite Hf in HF.
    + right. by rewrite Hr, He.
    + left. split; [done|]. split; [|done].
      exists (raf_next pre). by rewrite He, union_empty_r_L.
  - cbn zeta in *.
    pose proof (ScrambleFacts.frames_spec Math_random innerText_of pre p n Hf Hr Hc)
      as (Hsk & Hres & Hcase).
    rewrite ScrambleFacts.frames_S.
    set (st := frames Math_random innerText_of n _) in *.
    destruct IH as [(Hn & (h & Hh & Hp) & Hrs) | (Hd & Hp & Hrs)].
    + destruct Hcase as [(_ & Hfr & _) | (Hd & _)]; [|by destruct Hn].
      unfold next_frame. rewrite Hh. cbn [step].
      rewrite decide_True by (rewrite Hp; by apply elem_of_singleton).
      match goal with |- context [update _ ?s0] => set (st' := s0) end.
      destruct (ScrambleFacts.update_cases Math_random innerText_of st')
        as [_ [[HF ->] | [HF ->]]];
        cbn; cbn in HF; rewrite Hfr in HF;
        rewrite ScrambleFacts.settled_skeleton, Hsk,
          <- ScrambleFacts.settled_skeleton in HF;
        replace (Z.of_nat n + 1)%Z with (Z.of_nat (S n)) in HF by lia;
        rewrite Hp, difference_diag_L.
      * right. by rewrite Hres, Hrs.
      * left. split; [done|]. split; [|done].
        exists (raf_next st). by rewrite union_empty_r_L.
    + rewrite (ScrambleFacts.next_frame_idle Math_random innerText_of st).
      * right. split; [|done].
        eapply ScrambleFacts.settled_mono; [|exact Hd]. lia.
      * intros h _. rewrite Hp. apply not_elem_of_empty.
Qed.

(** Scrambling an empty element to the empty text is over at once: the
    promise is resolved inside the call, no frame callback is requested,
    no random number is drawn and the element stays empty. *)
Theorem setText_empty_is_immediate (s : state) :
  innerText_of (el_innerHTML s) = [] →
  let r := setText Math_random innerText_of [] s in
  r.2 ∈ resolved r.1
  ∧ queue r.1 = []
  ∧ el_innerHTML r.1 = []
  ∧ raf_pending r.1 = cancelAnimationFrame (frameRequest s) (raf_pending s)
  ∧ raf_next r.1 = raf_next s
  ∧ rng r.1 = rng s.
Proof.
  intros Ho. cbn zeta. rewrite ScrambleFacts.setText_unfold, Ho. cbn.
  split; [|done]. apply elem_of_union_l. by apply elem_of_singleton.
Qed.

End More.

Lemma setText_empty_is_immediate_witness :
  let r := setText sample_random plain_text [] (new []) in
  r.2 ∈ resolved r.1
  ∧ queue r.1 = []
  ∧ el_innerHTML r.1 = []
  ∧ raf_pending r.1 = cancelAnimationFrame None ∅
  ∧ raf_next r.1 = 0%nat
  ∧ rng r.1 = 0%nat.
Proof.
  apply (setText_empty_is_immediate sample_random plain_text (new [])).
  reflexivity.
Defined.

Section Reachable.
Variable Math_random : nat → Q.
Variable innerText_of : jsstring → jsstring.

Lemma update_promises_fresh (s : state) :
  promises_fresh s → promises_fresh (update Math_random s).
Proof.
  intros [H1 H2].
  destruct (ScrambleFacts.update_cases Math_random innerText_of s)
    as [_ [[_ ->] | [_ ->]]]; unfold promises_fresh; cbn; [|done].
  split; [|done]. intros p.
  destruct (resolve s) as [p'|] eqn:E; [|by apply H1].
  rewrite elem_of_union, elem_of_singleton.
  intros [-> | Hp]; [by apply H2 | by apply H1].
Qed.

Lemma step_promises_fresh (s : state) (e : event) :
  promises_fresh s → promises_fresh (step Math_random innerText_of s e).
Proof.
  intros [H1 H2]. destruct e as [newText | h]; cbn [step].
  - rewrite ScrambleFacts.setText_unfold. cbn [fst].
    apply update_promises_fresh. unfold promises_fresh; cbn. split.
    + intros p Hp. specialize (H1 p Hp). lia.
    + intros p E. injection E as <-. lia.
  - case_decide; [|done]. by apply update_promises_fresh.
Qed.

Lemma run_promises_fresh (evs : list event) (s : state) :
  promises_fresh s → promises_fresh (run Math_random innerText_of evs s).
Proof.
  unfold run. revert s.
  induction evs as [|e evs IH]; intros s Hs; cbn; [done|].
  apply IH. by apply step_promises_fresh.
Qed.

Lemma new_promises_fresh (markup : jsstring) : promises_fresh (new markup).
Proof.
  split; cbn; [|done]. intros p Hp. by apply not_elem_of_empty in Hp.
Qed.

Lemma frame_events_idle (hs : list nat) (st : state) :
  raf_pending st = ∅ →
  run Math_random innerText_of (frame_events hs) st = st.
Proof.
  intros He. unfold run, frame_events.
  induction hs as [|h hs IH]; cbn; [done|].
  rewrite decide_False; [done|]. rewrite He. apply not_elem_of_empty.
Qed.

(** The trace lemma for a [setText] called in a reachable state. *)
Lemma setText_trace (markup : jsstring) (evs : list event)
    (newText : jsstring) (n : nat) :
  let s := run Math_random innerText_of evs (new markup) in
  let r := setText Math_random innerText_of newText s in
  let st := frames Math_random innerText_of n r.1 in
  (r.2 ∉ resolved s)
  ∧ ((¬ Forall (settled (Z.of_nat n)) (queue r.1)
      ∧ (∃ h, frameRequest st = Some h ∧ raf_pending st = {[h]})
      ∧ resolved st = resolved s)
     ∨ (Forall (settled (Z.of_nat n)) (queue r.1)
        ∧ raf_pending st = ∅
        ∧ resolved st = {[r.2]} ∪ resolved s)).
Proof.
  cbn zeta. set (s := run Math_random innerText_of evs (new markup)).
  pose proof (ScrambleFacts.run_single_loop Math_random innerText_of evs _
                (ScrambleFacts.new_single_loop markup)) as Hs.
  pose proof (run_promises_fresh evs _ (new_promises_fresh markup)) as [Hp _].
  fold s in Hs, Hp.
  destruct (setText_pre Math_random innerText_of newText s)
    as (pre & -> & Hf & Hr & _ & Hrs & Hfq & Hpend & _).
  cbn [fst snd].
  rewrite (ScrambleFacts.cancel_single_loop s Hs) in Hpend.
  assert (∀ h, frameRequest pre = Some h → h ∉ raf_pending pre) as Hc.
  { intros h _. rewrite Hpend. apply not_elem_of_empty. }
  pose proof (ScrambleFacts.frames_spec Math_random innerText_of pre _ 0 Hf Hr Hc)
    as (Hsk & _).
  change (frames Math_random innerText_of 0 (update Math_random pre))
    with (update Math_random pre) in Hsk.
  split.
  { intros Hin. specialize (Hp _ Hin). lia. }
  rewrite ScrambleFacts.settled_skeleton, Hsk, <- ScrambleFacts.settled_skeleton.
  rewrite <- Hrs.
  exact (frames_trace Math_random innerText_of pre _ n Hf Hr Hpend).
Qed.

(** After a [setText] called in any state the instance can reach, the
    promise it returned is resolved once [n] frame callbacks have run if
    and only if frame [n] has reached every slot's end frame: the
    completion signal comes with the frame that settles the last slot, not
    before. *)
Theorem promise_resolves_when_settled (markup : jsstring)
    (evs : list event) (newText : jsstring) (n : nat) :
  let s := run Math_random innerText_of evs (new markup) in
  let r := setText Math_random innerText_of newText s in
  r.2 ∈ resolved (frames Math_random innerText_of n r.1)
  ↔ Forall (settled (Z.of_nat n)) (queue r.1).
Proof.
  cbn zeta.
  destruct (setText_trace markup evs newText n)
    as (Hfresh & [(Hn & _ & Hrs) | (Hd & _ & Hrs)]); rewrite Hrs.
  - split; [intros H; by destruct Hfresh | intros H; by destruct Hn].
  - split; [done|]. intros _. apply elem_of_union_l. by apply elem_of_singleton.
Qed.

(** After a [setText] called in any state the instance can reach, and [n]
    frame callbacks: either every slot is settled, and then no callback
    is scheduled and frame events no longer change anything; or some slot
    is not, and then exactly one callback is scheduled, the one in
    [frameRequest]. *)
Theorem settled_animation_is_quiet (markup : jsstring)
    (evs : list event) (newText : jsstring) (n : nat) :
  let s := run Math_random innerText_of evs (new markup) in
  let r := setText Math_random innerText_of newText s in
  let st := frames Math_random innerText_of n r.1 in
  (Forall (settled (Z.of_nat n)) (queue r.1)
   ∧ raf_pending st = ∅
   ∧ ∀ hs, run Math_random innerText_of (frame_events hs) st = st)
  ∨ (¬ Forall (settled (Z.of_nat n)) (queue r.1)
     ∧ ∃ h, frameRequest st = Some h ∧ raf_pending st = {[h]}).
Proof.
  cbn zeta.
  destruct (setText_trace markup evs newText n)
    as (_ & [(Hn & Hh & _) | (Hd & Hp & _)]).
  - right. done.
  - left. split; [done|]. split; [done|].
    intros hs. by apply frame_events_idle.
Qed.

End Reachable.

Section Shown.
Variable Math_random : nat → Q.
Variable innerText_of : jsstring → jsstring.
Hypothesis Math_random_range : ∀ k, (0 <= Math_random k < 1)%Q.

(** *** Before the first slot starts *)

Lemma update_loop_unstarted s_chars fr qu output complete k :
  Forall in_range qu → Forall (unstarted fr) qu →
  update_loop Math_random s_chars fr qu output complete k
  = mkPass qu (output ++ concat (map from qu)) complete k.
Proof.
  revert output complete k.
  induction qu as [|sl rest IH]; intros output complete k Hr Hu; cbn.
  - by rewrite app_nil_r.
  - apply Forall_cons in Hr as [[_ (d & Hd & He)] Hr].
    apply Forall_cons in Hu as [Hs Hu]. unfold unstarted in Hs.
    unfold update_slot.
    rewrite (proj2 (Z.leb_gt _ _)) by lia.
    rewrite (proj2 (Z.leb_gt _ _)) by lia.
    rewrite IH by done. cbn. by rewrite <- app_assoc.
Qed.

Lemma update_unstarted (s : state) :
  Forall in_range (queue s) → Forall (unstarted (frame s)) (queue s) →
  el_innerHTML (update Math_random s) = concat (map from (queue s))
  ∧ queue (update Math_random s) = queue s.
Proof.
  intros Hr Hu. unfold update.
  rewrite update_loop_unstarted by done. cbn.
  by case_decide.
Qed.

Lemma unstarted_mono (a b : Z) (qu : list slot) :
  (a ≤ b)%Z → Forall (unstarted b) qu → Forall (unstarted a) qu.
Proof.
  intros Hab HF. eapply Forall_impl; [exact HF|].
  unfold unstarted. intros sl H. lia.
Qed.

Lemma frames_unstarted (pre : state) (p : nat) (n : nat) :
  frame pre = 0%Z → resolve pre = Some p →
  (∀ h, frameRequest pre = Some h → h ∉ raf_pending pre) →
  Forall in_range (queue pre) →
  Forall (unstarted (Z.of_nat n)) (queue pre) →
  let st := frames Math_random innerText_of n (update Math_random pre) in
  el_innerHTML st = concat (map from (queue pre)) ∧ queue st = queue pre.
Proof.
  intros Hf Hr Hc Hrange. induction n as [|n IH]; intros Hu.
  - change (frames Math_random innerText_of 0 (update Math_random pre))
      with (update Math_random pre). cbn zeta.
    apply update_unstarted; [done | by rewrite Hf].
  - cbn zeta in *.
    assert (Forall (unstarted (Z.of_nat n)) (queue pre)) as Hu'
      by (eapply unstarted_mono; [|exact Hu]; lia).
    destruct (IH Hu') as [Hhtml Hq].
    pose proof (ScrambleFacts.frames_spec Math_random innerText_of pre p n Hf Hr Hc)
      as (_ & _ & Hcase).
    rewrite ScrambleFacts.frames_S.
    set (st := frames Math_random innerText_of n _) in *.
    destruct Hcase as [(_ & Hfr & h & Hh & Hin) | (_ & _ & _ & Hidle)].
    + unfold next_frame. rewrite Hh. cbn [step].
      rewrite decide_True by done.
      match goal with |- context [update _ ?s0] => set (st' := s0) end.
      assert (queue st' = queue pre) as Hq' by done.
      assert (frame st' = Z.of_nat (S n)) as Hf' by (subst st'; cbn; lia).
      rewrite <- Hq'. apply update_unstarted; rewrite ?Hf', Hq'; done.
    + by rewrite (ScrambleFacts.next_frame_idle Math_random innerText_of st Hidle).
Qed.

Lemma build_queue_from (oldText newText : jsstring) (n i k : nat) :
  concat (map from (build_queue Math_random oldText newText i n k).1)
  = take n (drop i oldText).
Proof.
  revert i k. induction n as [|n IH]; intros i k; cbn; [done|].
  specialize (IH (S i) (S (S k))).
  destruct (build_queue Math_random oldText newText (S i) n (S (S k)))
    as [rest k'].
  cbn in *. rewrite IH, ScrambleFacts.or_empty_index.
  destruct (oldText !! i) as [c|] eqn:E.
  - by rewrite (drop_S _ _ _ E).
  - apply lookup_ge_None in E.
    rewrite !drop_ge by lia. by rewrite !take_nil.
Qed.

Lemma unstarted_skeleton (fr : Z) (qu : list slot) :
  Forall (unstarted fr) qu
  ↔ Forall (λ sk : jsstring * jsstring * Z * Z, (fr < sk.1.2)%Z)
           (map skeleton qu).
Proof. by rewrite Forall_fmap. Qed.

(** As long as frame [n] has not reached the start frame of any slot,
    the element shows exactly the text it showed when [setText] was
    called: the scramble changes nothing before the first slot starts. *)
Theorem old_text_until_first_start (s : state) (newText : jsstring) (n : nat) :
  let oldText := innerText_of (el_innerHTML s) in
  let s0 := (setText Math_random innerText_of newText s).1 in
  Forall (unstarted (Z.of_nat n)) (queue s0) →
  el_innerHTML (frames Math_random innerText_of n s0) = oldText.
Proof.
  cbn zeta.
  destruct (setText_pre Math_random innerText_of newText s)
    as (pre & -> & Hf & Hr & _ & _ & Hfq & Hpend & _ & _ & _ & Hb).
  cbn [fst]. intros Hu.
  pose proof (pre_not_scheduled Math_random s pre Hfq Hpend) as Hc.
  pose proof (ScrambleFacts.frames_spec Math_random innerText_of pre _ 0 Hf Hr Hc)
    as (Hsk & _).
  change (frames Math_random innerText_of 0 (update Math_random pre))
    with (update Math_random pre) in Hsk.
  rewrite unstarted_skeleton, Hsk, <- unstarted_skeleton in Hu.
  set (oldText := innerText_of (el_innerHTML s)) in *.
  set (len := Nat.max (length oldText) (length newText)) in *.
  pose proof (ScrambleFacts.build_queue_spec Math_random Math_random_range
                oldText newText len 0 (rng s)) as (_ & Hrange & _).
  pose proof (build_queue_from oldText newText len 0 (rng s)) as Hfrom.
  rewrite <- Hb in Hrange, Hfrom. cbn [fst] in Hrange, Hfrom.
  destruct (frames_unstarted pre _ n Hf Hr Hc Hrange Hu) as [-> _].
  rewrite Hfrom, drop_0, take_ge; [done | subst len; lia].
Qed.

(** *** Glyphs *)

Lemma randomChar_glyph (s_chars : jsstring) (k : nat) :
  s_chars ≠ [] →
  ∃ c, randomChar Math_random s_chars k = Some [c] ∧ c ∈ s_chars.
Proof.
  intros Hne. unfold randomChar, js_index.
  assert (0 < Z.of_nat (length s_chars))%Z as Hlen.
  { destruct s_chars; [done | cbn; lia]. }
  pose proof (ScrambleFacts.random_below_range Math_random Math_random_range
                k _ Hlen) as [H0 H1].
  rewrite (proj2 (Z.ltb_ge _ _)) by lia.
  match goal with |- context [?l !! ?i] => destruct (l !! i) as [c|] eqn:E end.
  - exists c. split; [done|]. by eapply list_elem_of_lookup_2.
  - apply lookup_ge_None in E. lia.
Qed.

Lemma update_slot_glyph s_chars fr sl k :
  s_chars ≠ [] → glyph_ok s_chars sl →
  glyph_ok s_chars (update_slot Math_random s_chars fr sl k).1.1.1.
Proof.
  intros Hne Hg. unfold update_slot.
  destruct (end_ sl <=? fr)%Z; [done|].
  destruct (start sl <=? fr)%Z; [|done].
  destruct (negb (truthy (char sl))); cbn.
  - right. destruct (randomChar_glyph s_chars k Hne) as (c & -> & Hc). eauto.
  - destruct (Qlt_le_dec _ _); cbn; [|done].
    right. destruct (randomChar_glyph s_chars (S k) Hne) as (c & -> & Hc). eauto.
Qed.

Lemma update_loop_glyph s_chars fr qu output complete k :
  s_chars ≠ [] → Forall (glyph_ok s_chars) qu →
  Forall (glyph_ok s_chars)
    (p_queue (update_loop Math_random s_chars fr qu output complete k)).
Proof.
  intros Hne. revert output complete k.
  induction qu as [|sl rest IH]; intros output complete k HF; cbn; [done|].
  apply Forall_cons in HF as [Hsl HF].
  pose proof (update_slot_glyph s_chars fr sl k Hne Hsl) as Hg.
  destruct (update_slot Math_random s_chars fr sl k) as [[[sl' out] fin] k'].
  cbn in *. constructor; [done | by apply IH].
Qed.

Lemma update_glyphs_ok (s : state) :
  glyphs_ok s → glyphs_ok (update Math_random s).
Proof.
  intros [Hne HF]. unfold update, glyphs_ok.
  pose proof (update_loop_glyph (chars s) (frame s) (queue s) [] 0 (rng s) Hne HF).
  by case_decide.
Qed.

Lemma build_queue_glyph g oldText newText i n k :
  Forall (glyph_ok g) (build_queue Math_random oldText newText i n k).1.
Proof.
  revert i k. induction n as [|n IH]; intros i k; cbn; [done|].
  specialize (IH (S i) (S (S k))).
  destruct (build_queue Math_random oldText newText (S i) n (S (S k))).
  cbn in *. constructor; [by left | done].
Qed.

Lemma step_glyphs_ok (s : state) (e : event) :
  glyphs_ok s → glyphs_ok (step Math_random innerText_of s e).
Proof.
  intros Hs. destruct e as [newText | h]; cbn [step].
  - rewrite ScrambleFacts.setText_unfold. cbn [fst].
    apply update_glyphs_ok. destruct Hs as [Hne _].
    split; cbn; [done | apply build_queue_glyph].
  - case_decide; [|done]. by apply update_glyphs_ok.
Qed.

Lemma update_chars (s : state) : chars (update Math_random s) = chars s.
Proof. unfold update. by case_decide. Qed.

Lemma step_chars (s : state) (e : event) :
  chars (step Math_random innerText_of s e) = chars s.
Proof.
  destruct e as [newText | h]; cbn [step].
  - rewrite ScrambleFacts.setText_unfold. cbn [fst]. by rewrite update_chars.
  - case_decide; [|done]. by rewrite update_chars.
Qed.

(** In every state an instance can reach, the glyph a slot keeps for its
    scramble phase is one character of the instance's glyph string, which
    is the one set by the constructor; [randomChar] never yields
    undefined, so no slot is ever rendered as the text undefined. *)
Theorem glyphs_come_from_chars (markup : jsstring) (evs : list event) :
  let s := run Math_random innerText_of evs (new markup) in
  chars s = scramble_chars
  ∧ Forall (glyph_ok scramble_chars) (queue s)
  ∧ ∀ k, ∃ c, randomChar Math_random scramble_chars k = Some [c]
              ∧ c ∈ scramble_chars.
Proof.
  cbn zeta.
  assert (∀ s0, chars s0 = scramble_chars ∧ glyphs_ok s0 →
                chars (run Math_random innerText_of evs s0) = scramble_chars
                ∧ glyphs_ok (run Math_random innerText_of evs s0)) as Hrun.
  { unfold run. induction evs as [|e evs IH]; intros s0 [Hc Hg]; cbn; [done|].
    apply IH. split; [by rewrite step_chars | by apply step_glyphs_ok]. }
  destruct (Hrun (new markup)) as [Hc [_ Hg]].
  { split; [done|]. split; [done | constructor]. }
  split; [done|]. split; [by rewrite <- Hc|].
  intros k. by apply randomChar_glyph.
Qed.

(** *** The subtitle *)

Lemma build_queue_same (text : jsstring) (i n k : nat) :
  Forall (λ sl, from sl = to sl) (build_queue Math_random text text i n k).1.
Proof.
  revert i k. induction n as [|n IH]; intros i k; cbn; [done|].
  specialize (IH (S i) (S (S k))).
  destruct (build_queue Math_random text text (S i) n (S (S k))).
  cbn in *. by constructor.
Qed.

Lemma same_skeleton (qu : list slot) :
  Forall (λ sl, from sl = to sl) qu
  ↔ Forall (λ sk : jsstring * jsstring * Z * Z, sk.1.1.1 = sk.1.1.2)
           (map skeleton qu).
Proof. by rewrite Forall_fmap. Qed.

(** The subtitle's timer scrambles the element towards the text it
    already shows. The queue then has one slot per character of that
    text, at every frame each slot leads from a character to the same
    character, and after 78 frame callbacks at the latest the element
    holds that text again and the promise is resolved. *)
Theorem scramble_in_place_restores (s : state) (n : nat) :
  let text := innerText_of (el_innerHTML s) in
  let r := scramble_in_place Math_random innerText_of s in
  length (queue r.1) = length text
  ∧ Forall (λ sl, from sl = to sl)
      (queue (frames Math_random innerText_of n r.1))
  ∧ el_innerHTML (frames Math_random innerText_of 78 r.1) = text
  ∧ r.2 ∈ resolved (frames Math_random innerText_of 78 r.1).
Proof.
  cbn zeta. unfold scramble_in_place.
  set (text := innerText_of (el_innerHTML s)).
  pose proof (ScrambleFacts.setText_resolves Math_random innerText_of
                Math_random_range s text) as Hres. cbn zeta in Hres.
  destruct (setText_pre Math_random innerText_of text s)
    as (pre & E & Hf & Hr & _ & _ & Hfq & Hpend & _ & _ & _ & Hb).
  rewrite E in *. cbn [fst snd] in *. fold text in Hb.
  rewrite Nat.max_id in Hb.
  pose proof (pre_not_scheduled Math_random s pre Hfq Hpend) as Hc.
  pose proof (ScrambleFacts.build_queue_spec Math_random Math_random_range
                text text (length text) 0 (rng s)) as (Hlen & Hrange & Hto).
  pose proof (build_queue_same text 0 (length text) (rng s)) as Hsame.
  rewrite <- Hb in Hlen, Hrange, Hto, Hsame. cbn [fst] in *.
  rewrite drop_0, take_ge in Hto by lia.
  pose proof (ScrambleFacts.frames_spec Math_random innerText_of pre _ 0 Hf Hr Hc)
    as (Hsk0 & _).
  change (frames Math_random innerText_of 0 (update Math_random pre))
    with (update Math_random pre) in Hsk0.
  pose proof (ScrambleFacts.frames_spec Math_random innerText_of pre _ n Hf Hr Hc)
    as (Hskn & _).
  pose proof (ScrambleFacts.frames_spec Math_random innerText_of pre _ 78 Hf Hr Hc)
    as (_ & _ & [(Hn & _) | (_ & Hhtml & _)]).
  { destruct Hn. by apply ScrambleFacts.in_range_settled_78. }
  split; [by rewrite <- (length_map skeleton), Hsk0, length_map|].
  split; [by rewrite same_skeleton, Hskn, <- same_skeleton|].
  split; [by rewrite Hhtml | done].
Qed.

End Shown.

Lemma sample_random_in_range : ∀ k, (0 <= sample_random k < 1)%Q.
Proof.
  intros k. unfold sample_random, Qle, Qlt. cbn.
  pose proof (Nat.mod_upper_bound (k * 37 + 11) 100). lia.
Qed.

(** C1, as stated, fails for a target text that contains markup. With a
    browser that reports the text of markup by dropping its tags,
    [setText] towards [a<b>x</b>] ends, once every slot is settled, with
    exactly that string as the element's markup, and the text the element
    then shows is [ax], not the target text. *)
Lemma displayed_text_differs_for_markup :
  let newText := of_ascii "a<b>x</b>" in
  let s0 := (setText sample_random strip_tags newText (new (of_ascii "xy"))).1 in
  let final := frames sample_random strip_tags 78 s0 in
  strip_tags (of_ascii "xy") = of_ascii "xy"
  ∧ length (queue s0) = 9
  ∧ Forall (settled 78) (queue s0)
  ∧ el_innerHTML final = newText
  ∧ strip_tags (el_innerHTML final) = of_ascii "ax"
  ∧ strip_tags (el_innerHTML final) ≠ newText.
Proof.
  vm_compute.
  split; [reflexivity|]. split; [reflexivity|].
  split; [repeat constructor; discriminate|].
  split; [reflexivity|]. split; [reflexivity | discriminate].
Qed.

Lemma promise_resolves_when_settled_witness :
  let r := setText sample_random plain_text (of_ascii "abc")
             (run sample_random plain_text [] (new (of_ascii "xy"))) in
  r.2 ∈ resolved (frames sample_random plain_text 61 r.1)
  ∧ ¬ r.2 ∈ resolved (frames sample_random plain_text 60 r.1).
Proof.
  split.
  - apply (promise_resolves_when_settled sample_random plain_text
             (of_ascii "xy") [] (of_ascii "abc") 61).
    vm_compute. repeat constructor; discriminate.
  - intros H.
    apply (promise_resolves_when_settled sample_random plain_text
             (of_ascii "xy") [] (of_ascii "abc") 60) in H.
    apply Forall_cons in H as [_ H]. apply Forall_cons in H as [_ H].
    apply Forall_cons in H as [H _]. by vm_compute in H.
Defined.

Lemma old_text_until_first_start_witness :
  let s0 := (setText sample_random plain_text (of_ascii "abc")
               (new (of_ascii "xy"))).1 in
  el_innerHTML (frames sample_random plain_text 3 s0) = of_ascii "xy".
Proof.
  apply (old_text_until_first_start sample_random plain_text
           sample_random_in_range (new (of_ascii "xy")) (of_ascii "abc") 3).
  vm_compute. repeat constructor.
Defined.

Lemma glyphs_come_from_chars_witness :
  let s := run sample_random plain_text
             [SetText (of_ascii "abc"); AnimationFrame 0; AnimationFrame 1]
             (new (of_ascii "xy")) in
  chars s = scramble_chars
  ∧ Forall (glyph_ok scramble_chars) (queue s)
  ∧ ∀ k, ∃ c, randomChar sample_random scramble_chars k = Some [c]
              ∧ c ∈ scramble_chars.
Proof.
  apply (glyphs_come_from_chars sample_random plain_text sample_random_in_range).
Defined.

Lemma scramble_in_place_restores_witness :
  let r := scramble_in_place sample_random plain_text (new (of_ascii "xy")) in
  length (queue r.1) = 2
  ∧ Forall (λ sl, from sl = to sl)
      (queue (frames sample_random plain_text 5 r.1))
  ∧ el_innerHTML (frames sample_random plain_text 78 r.1) = of_ascii "xy"
  ∧ r.2 ∈ resolved (frames sample_random plain_text 78 r.1).
Proof.
  apply (scramble_in_place_restores sample_random plain_text
           sample_random_in_range (new (of_ascii "xy")) 5).
Defined.

End ScrambleMoreFacts.
